(** * WebAclAuthorizer: a shallow embedding of src/authorization/WebAclAuthorizer.ts

    The authorizer resolves the ACL document that governs a resource by
    walking up the container hierarchy, narrows its quads to the
    authorizations that apply, and checks the requested modes against the
    credentials of the agent.

    Layout: the data model (terms, quads, the n3 store), the effect monad
    (event trace, exceptions, fuel), the methods of the class in source
    order, a concrete pod used for the examples, and then the theorems. *)

From Stdlib Require Import String Ascii List Bool Arith Lia Permutation.
Import ListNotations.
Local Open Scope string_scope.
Local Open Scope list_scope.

Infix "+++" := String.append (right associativity, at level 60).

(* ------------------------------------------------------------------ *)
(** ** RDF terms, quads and the n3 [Store] *)

(** n3 identifies every term by an internal string id (an IRI for a named
    node, the quoted lexical form for a literal, the empty string for the
    default graph); all the queries of the authorizer compare those ids. *)
Definition Term := string.

Record Quad := mkQuad {
  subject : Term;
  predicate : Term;
  object : Term;
  graph : Term
}.

Definition Quad_eqb (a b : Quad) : bool :=
  String.eqb (subject a) (subject b) && String.eqb (predicate a) (predicate b)
  && String.eqb (object a) (object b) && String.eqb (graph a) (graph b).

(** A store is a duplicate-free collection of quads; the list keeps them in
    insertion order. *)
Definition Store := list Quad.

(** A query position is either [null] (any term) or a term to match. *)
Definition matches (pattern : option Term) (t : Term) : bool :=
  match pattern with
  | None => true
  | Some p => String.eqb p t
  end.

Definition getQuads (store : Store) (s p o g : option Term) : list Quad :=
  filter (fun q => matches s (subject q) && matches p (predicate q)
                   && matches o (object q) && matches g (graph q)) store.

Definition countQuads (store : Store) (s p o g : option Term) : nat :=
  length (getQuads store s p o g).

Definition addQuad (store : Store) (q : Quad) : Store :=
  if existsb (Quad_eqb q) store then store else store ++ [q].

Definition addQuads (store : Store) (quads : list Quad) : Store :=
  fold_left addQuad quads store.

(* ------------------------------------------------------------------ *)
(** ** Vocabulary *)

(** Modelled from the spec: util/UriConstants.ts is not part of the sources
    at hand. The spec names the predicates "accessTo", "default", "mode",
    "agent", "agentClass", the modes and the two agent classes; they are
    given here the IRIs of the WAC and FOAF vocabularies. [ACL_get] is the
    property lookup [ACL[key]], undefined for any other key. *)
Module ACL.
Definition prefix : string := "http://www.w3.org/ns/auth/acl#".
Definition accessTo : Term := prefix +++ "accessTo".
Definition agent : Term := prefix +++ "agent".
Definition agentClass : Term := prefix +++ "agentClass".
Definition default : Term := prefix +++ "default".
Definition mode : Term := prefix +++ "mode".
Definition Write : Term := prefix +++ "Write".
Definition Read : Term := prefix +++ "Read".
Definition Append : Term := prefix +++ "Append".
Definition Control : Term := prefix +++ "Control".
End ACL.

Module FOAF.
Definition prefix : string := "http://xmlns.com/foaf/0.1/".
Definition Agent : Term := prefix +++ "Agent".
Definition AuthenticatedAgent : Term := prefix +++ "AuthenticatedAgent".
End FOAF.

Definition ACL_get (key : string) : option Term :=
  if String.eqb key "Write" then Some ACL.Write
  else if String.eqb key "Read" then Some ACL.Read
  else if String.eqb key "Append" then Some ACL.Append
  else if String.eqb key "Control" then Some ACL.Control
  else if String.eqb key "accessTo" then Some ACL.accessTo
  else if String.eqb key "agent" then Some ACL.agent
  else if String.eqb key "agentClass" then Some ACL.agentClass
  else if String.eqb key "default" then Some ACL.default
  else if String.eqb key "mode" then Some ACL.mode
  else None.

(** Modelled from the spec: util/ContentTypes.ts is not part of the sources
    at hand; the internal, content-type-neutral quad representation. *)
Definition INTERNAL_QUADS : string := "internal/quads".

(* ------------------------------------------------------------------ *)
(** ** Errors, identifiers, credentials, permissions *)

Inductive Error :=
| NotFoundHttpError
| ForbiddenHttpError
| UnauthorizedHttpError
| TypeError
| OtherError (message : string).

(** [error instanceof NotFoundHttpError] *)
Definition isNotFound (e : Error) : bool :=
  match e with
  | NotFoundHttpError => true
  | _ => false
  end.

Record ResourceIdentifier := mkId { path : string }.

(** [webID?: string] *)
Record Credentials := mkCredentials { webID : option string }.

(** Modelled from the spec: ldp/permissions/PermissionSet.ts is not part of
    the sources at hand. The keys are the access-mode names; a permission
    set is an object, kept here as its properties in key order. *)
Inductive Mode := read | append | write | control.

Definition keyName (m : Mode) : string :=
  match m with
  | read => "read"
  | append => "append"
  | write => "write"
  | control => "control"
  end.

Definition Mode_eqb (a b : Mode) : bool :=
  match a, b with
  | read, read | append, append | write, write | control, control => true
  | _, _ => false
  end.

Definition PermissionSet := list (Mode * bool).

(** [Object.keys(permissions)] *)
Definition keys (permissions : PermissionSet) : list Mode := map fst permissions.

(** [permissions[key]]; a missing property is undefined, which is falsy. *)
Fixpoint getProperty (permissions : PermissionSet) (key : Mode) : bool :=
  match permissions with
  | [] => false
  | (k, v) :: rest => if Mode_eqb k key then v else getProperty rest key
  end.

(** A readable stream of quads: the quads it emits, then either 'end' or an
    'error' event. *)
Record Stream := mkStream {
  emitted : list Quad;
  failure : option Error
}.

Record Representation := mkRepresentation { data : Stream }.

Record AuthorizerArgs := mkArgs {
  credentials : Credentials;
  identifier : ResourceIdentifier;
  permissions : PermissionSet
}.

(* ------------------------------------------------------------------ *)
(** ** Effects: collaborator calls, log lines, exceptions *)

Inductive LogLevel := Debug | Info | Warn | ErrorLevel.

Inductive Event :=
| Log (level : LogLevel) (message : string) (meta : option Error)
| GetAcl (id : ResourceIdentifier)
| GetRepresentation (id : ResourceIdentifier) (type : string)
| IsAcl (id : ResourceIdentifier).

(** How a computation ends: with a value, with a thrown error, or still
    running when the recursion budget of the model is used up. *)
Inductive Outcome (A : Type) :=
| Return (a : A)
| Throw (e : Error)
| OutOfFuel.
Arguments Return {A} a.
Arguments Throw {A} e.
Arguments OutOfFuel {A}.

(** A computation: the events it performed, in order, and how it ended. *)
Definition M (A : Type) : Type := list Event * Outcome A.

Definition ret {A} (a : A) : M A := ([], Return a).
Definition throw {A} (e : Error) : M A := ([], Throw e).
Definition emit (ev : Event) : M unit := ([ev], Return tt).

Definition bind {A B} (m : M A) (f : A -> M B) : M B :=
  match m with
  | (t, Return a) => let (t', r) := f a in (t ++ t', r)
  | (t, Throw e) => (t, Throw e)
  | (t, OutOfFuel) => (t, OutOfFuel)
  end.

Notation "x <- m ;; k" := (bind m (fun x => k))
  (at level 61, m at next level, right associativity).
Notation "m ;; k" := (bind m (fun _ => k))
  (at level 61, right associativity).

(** [try { body } catch (error) { handler }] *)
Definition tryCatch {A} (body : M A) (handler : Error -> M A) : M A :=
  match body with
  | (t, Throw e) => let (t', r) := handler e in (t ++ t', r)
  | other => other
  end.

(** Result of an awaited collaborator call or of a fallible helper. *)
Definition lift {A} (r : Error + A) : M A :=
  match r with
  | inl e => throw e
  | inr a => ret a
  end.

Definition log (level : LogLevel) (message : string) : M unit :=
  emit (Log level message None).

(** [array.forEach(callback)]: an exception in the callback leaves the loop. *)
Fixpoint forEach {A} (l : list A) (callback : A -> M unit) : M unit :=
  match l with
  | [] => ret tt
  | x :: rest => callback x ;; forEach rest callback
  end.

(** [value ? a : b] for an optional boolean argument. *)
Definition truthy (b : option bool) : bool :=
  match b with
  | Some true => true
  | _ => false
  end.

(* ------------------------------------------------------------------ *)
(** ** Collaborators *)

Record AclManager := mkAclManager {
  getAcl : ResourceIdentifier -> Error + ResourceIdentifier;
  isAcl : ResourceIdentifier -> Error + bool
}.

Record ResourceStore := mkResourceStore {
  getRepresentation : ResourceIdentifier -> Error + Representation
}.

(* ------------------------------------------------------------------ *)
(** ** String helpers of JavaScript *)

Definition toUpperCaseAscii (c : ascii) : ascii :=
  let n := nat_of_ascii c in
  if ((97 <=? n) && (n <=? 122))%nat then ascii_of_nat (n - 32) else c.

Definition toLowerCaseAscii (c : ascii) : ascii :=
  let n := nat_of_ascii c in
  if ((65 <=? n) && (n <=? 90))%nat then ascii_of_nat (n + 32) else c.

Fixpoint toLowerCase (s : string) : string :=
  match s with
  | EmptyString => EmptyString
  | String c rest => String (toLowerCaseAscii c) (toLowerCase rest)
  end.

(* ------------------------------------------------------------------ *)
(** ** The class WebAclAuthorizer *)

(** capitalize: [mode[0]] is undefined for the empty string, and calling
    [toUpperCase] on it throws a TypeError. Letters outside ASCII are left
    as they are. *)
Definition capitalize (mode : string) : Error + string :=
  match mode with
  | EmptyString => inl TypeError
  | String c rest => inr (String (toUpperCaseAscii c) (toLowerCase rest))
  end.

(** hasAccess *)
Definition hasAccess (agent : Credentials) (auth : Term) (store : Store) : bool :=
  if Nat.ltb 0 (countQuads store (Some auth) (Some ACL.agentClass) (Some FOAF.Agent) None)
  then true
  else match webID agent with
       | None => false
       | Some id =>
           if Nat.ltb 0 (countQuads store (Some auth) (Some ACL.agentClass)
                                    (Some FOAF.AuthenticatedAgent) None)
           then true
           else Nat.ltb 0 (countQuads store (Some auth) (Some ACL.agent) (Some id) None)
       end.

(** checkPermission *)
Definition checkPermission (agent : Credentials) (store : Store) (mode : string) : M unit :=
  capitalized <- lift (capitalize mode) ;;
  let modeString := ACL_get capitalized in
  let auths := map subject (getQuads store None (Some ACL.mode) modeString None) in
  if negb (existsb (fun term => hasAccess agent term store) auths) then
    match webID agent with
    | Some id =>
        log Warn ("Agent " +++ id +++ " has no " +++ mode +++ " permissions") ;;
        throw ForbiddenHttpError
    | None =>
        log Warn ("Unauthenticated agent has no " +++ mode +++ " permissions") ;;
        throw UnauthorizedHttpError
    end
  else ret tt.

(** The body of filterData once the stream has been imported (lines 160 to
    163): the subjects of the quads with the given predicate and object,
    then every quad of each of those subjects, added to a new store. *)
Definition selectBySubject (store : Store) (predicate object : string) : Store :=
  let auths := map subject (getQuads store None (Some predicate) (Some object) None) in
  fold_left (fun newStore subject =>
               addQuads newStore (getQuads store (Some subject) None None None))
            auths [].

(** filterData: the import rejects with the error of the stream, if any. *)
Definition filterData (representation : Representation) (predicate object : string)
  : M Store :=
  let store := addQuads [] (emitted (data representation)) in
  match failure (data representation) with
  | Some e => throw e
  | None => ret (selectBySubject store predicate object)
  end.

(** An instance of the class: its two collaborators, and the namespace
    utility that the module imports. getParentContainer is defined in
    util/PathUtil.ts, which is not part of the sources at hand, so it is a
    parameter of the instance; the spec defines it for every identifier but
    the root container. *)
Record WebAclAuthorizer := mkAuthorizer {
  aclManager : AclManager;
  resourceStore : ResourceStore;
  getParentContainer : ResourceIdentifier -> Error + ResourceIdentifier
}.

(** The awaited steps of the try block of getAclRecursive (lines 120 to
    123): the locator gives the identifier of the ACL document and the
    storage its representation. *)
Definition readAcl (this : WebAclAuthorizer) (id : ResourceIdentifier)
  : M Representation :=
  acl <- (emit (GetAcl id) ;; lift (getAcl (aclManager this) id)) ;;
  log Debug ("Trying to read the ACL document " +++ path acl) ;;
  representation <- (emit (GetRepresentation acl INTERNAL_QUADS) ;;
                     lift (getRepresentation (resourceStore this) acl)) ;;
  log Info ("Reading ACL statements from " +++ path acl) ;;
  ret representation.

(** getAclRecursive. The catch clause falls through on a NotFoundHttpError
    ([None]) and rethrows anything else. Line 124 returns the promise of
    filterData without awaiting it: the method is left with that promise
    ([Some representation]) and a rejection of it settles the promise of
    getAclRecursive itself, out of reach of the catch clause. [fuel] bounds
    the depth of the recursion. *)
Fixpoint getAclRecursive (this : WebAclAuthorizer) (fuel : nat)
    (id : ResourceIdentifier) (recurse : option bool) : M Store :=
  match fuel with
  | O => ([], OutOfFuel)
  | S fuel' =>
      log Debug ("Trying to read the direct ACL document of " +++ path id) ;;
      found <- tryCatch
                 (representation <- readAcl this id ;; ret (Some representation))
                 (fun error =>
                    if isNotFound error then
                      log Debug ("No direct ACL document found for " +++ path id) ;;
                      ret None
                    else
                      emit (Log ErrorLevel ("Error reading ACL for " +++ path id)
                                (Some error)) ;;
                      throw error) ;;
      match found with
      | Some representation =>
          filterData representation
                     (if truthy recurse then ACL.default else ACL.accessTo) (path id)
      | None =>
          log Debug ("Traversing to the parent of " +++ path id) ;;
          parent <- lift (getParentContainer this id) ;;
          getAclRecursive this fuel' parent (Some true)
      end
  end.

(** handle *)
Definition handle (this : WebAclAuthorizer) (fuel : nat) (input : AuthorizerArgs)
  : M unit :=
  store <- getAclRecursive this fuel (identifier input) None ;;
  targetIsAcl <- (emit (IsAcl (identifier input)) ;;
                  lift (isAcl (aclManager this) (identifier input))) ;;
  if (targetIsAcl : bool) then
    checkPermission (credentials input) store "control"
  else
    forEach (keys (permissions input))
            (fun key =>
               if getProperty (permissions input) key then
                 checkPermission (credentials input) store (keyName key)
               else ret tt).


(* ------------------------------------------------------------------ *)
(** ** Vocabulary of the statements proved below *)

(** The IRI that checkPermission looks up for each access mode. *)
Definition modeIRI (m : Mode) : Term :=
  match m with
  | read => ACL.Read
  | append => ACL.Append
  | write => ACL.Write
  | control => ACL.Control
  end.

(** The store holds the statement (s, p, o), in whatever graph. *)
Definition holds (store : Store) (s p o : Term) : Prop :=
  exists g, In (mkQuad s p o g) store.

(** The keys of a permission set that are marked requested, in key order. *)
Definition requested (permissions : PermissionSet) : list Mode :=
  filter (getProperty permissions) (keys permissions).

(** Whether some authorization of the store that lists the mode gives the
    agent access: the test of checkPermission (line 65). *)
Definition isModeGranted (store : Store) (agent : Credentials) (m : Mode) : bool :=
  existsb (fun term => hasAccess agent term store)
          (map subject (getQuads store None (Some ACL.mode) (Some (modeIRI m)) None)).

(** The warning checkPermission logs before it throws. *)
Definition denialLine (agent : Credentials) (mode : string) : Event :=
  match webID agent with
  | Some id => Log Warn ("Agent " +++ id +++ " has no " +++ mode +++ " permissions") None
  | None => Log Warn ("Unauthenticated agent has no " +++ mode +++ " permissions") None
  end.

(** The error checkPermission throws. *)
Definition denialError (agent : Credentials) : Error :=
  match webID agent with
  | Some _ => ForbiddenHttpError
  | None => UnauthorizedHttpError
  end.

(** The flag of the probe that follows [n] climbs. *)
Definition flagAfter (n : nat) (recurse : option bool) : option bool :=
  match n with
  | O => recurse
  | S _ => Some true
  end.

Definition isResolutionEvent (ev : Event) : bool :=
  match ev with
  | GetAcl _ | GetRepresentation _ _ => true
  | _ => false
  end.

Definition isGetAclEvent (ev : Event) : bool :=
  match ev with
  | GetAcl _ => true
  | _ => false
  end.

Definition isIsAclEvent (ev : Event) : bool :=
  match ev with
  | IsAcl _ => true
  | _ => false
  end.

Definition countEvents (p : Event -> bool) (trace : list Event) : nat :=
  length (filter p trace).

Definition isWarnEvent (ev : Event) : bool :=
  match ev with
  | Log Warn _ _ => true
  | _ => false
  end.

(** The identifiers the locator was asked an ACL document for, in order. *)
Definition getAclCalls (trace : list Event) : list ResourceIdentifier :=
  flat_map (fun ev => match ev with
                      | GetAcl id => [id]
                      | _ => []
                      end) trace.

(** The test of checkPermission (line 65) for the mode IRI that the lookup in
    ACL gave; [None] is the undefined of a key that ACL does not have. *)
Definition grantsAccess (store : Store) (agent : Credentials) (modeString : option Term)
  : bool :=
  existsb (fun term => hasAccess agent term store)
          (map subject (getQuads store None (Some ACL.mode) modeString None)).

(** The strings on which the case functions of the model are those of
    JavaScript: every character is an ASCII character. *)
Fixpoint asciiOnly (s : string) : bool :=
  match s with
  | EmptyString => true
  | String c rest => Nat.ltb (nat_of_ascii c) 128 && asciiOnly rest
  end.

(** What the locator and the storage answer when asked for the ACL document
    of [id]: its representation, or the error of the first call that fails. *)
Definition fetchAcl (this : WebAclAuthorizer) (id : ResourceIdentifier)
  : Error + Representation :=
  match getAcl (aclManager this) id with
  | inl e => inl e
  | inr acl => getRepresentation (resourceStore this) acl
  end.

(** A representation whose stream emits the given quads and then ends. *)
Definition quadsOf (quads : list Quad) : Representation :=
  mkRepresentation (mkStream quads None).

(** [climb this n id = Some top]: the ACL documents of [id] and of its first
    [n - 1] ancestors are reported not found, and [top] is the [n]-th
    ancestor of [id]. *)
Fixpoint climb (this : WebAclAuthorizer) (n : nat) (id : ResourceIdentifier)
  : option ResourceIdentifier :=
  match n with
  | O => Some id
  | S n' =>
      match fetchAcl this id with
      | inl NotFoundHttpError =>
          match getParentContainer this id with
          | inr parent => climb this n' parent
          | inl _ => None
          end
      | _ => None
      end
  end.

(** The target and its first [n] ancestors, bottom-up. *)
Fixpoint chain (this : WebAclAuthorizer) (n : nat) (id : ResourceIdentifier)
  : list ResourceIdentifier :=
  id :: match n with
        | O => []
        | S n' =>
            match getParentContainer this id with
            | inr parent => chain this n' parent
            | inl _ => []
            end
        end.

(** The predicate a probe filters by. *)
Definition scopeOf (recurse : option bool) : string :=
  if truthy recurse then ACL.default else ACL.accessTo.

(** The log lines of getAclRecursive. *)
Definition startLine (id : ResourceIdentifier) : Event :=
  Log Debug ("Trying to read the direct ACL document of " +++ path id) None.
Definition notFoundLine (id : ResourceIdentifier) : Event :=
  Log Debug ("No direct ACL document found for " +++ path id) None.
Definition parentLine (id : ResourceIdentifier) : Event :=
  Log Debug ("Traversing to the parent of " +++ path id) None.
Definition errorLine (id : ResourceIdentifier) (e : Error) : Event :=
  Log ErrorLevel ("Error reading ACL for " +++ path id) (Some e).


(* ------------------------------------------------------------------ *)
(** ** A concrete pod for the examples *)

Definition isSlash (c : ascii) : bool := Ascii.eqb c "/"%char.

Fixpoint stripTrailingSlash (s : string) : string :=
  match s with
  | EmptyString => EmptyString
  | String c EmptyString => if isSlash c then EmptyString else s
  | String c rest => String c (stripTrailingSlash rest)
  end.

Fixpoint upToLastSlash (s : string) : option string :=
  match s with
  | EmptyString => None
  | String c rest =>
      match upToLastSlash rest with
      | Some r => Some (String c r)
      | None => if isSlash c then Some (String c EmptyString) else None
      end
  end.

(** Modelled from the spec: util/PathUtil.ts (getParentContainer) is not
    part of the sources at hand. Containers end in a path separator; the
    parent of an identifier is found by stripping its final path segment;
    the root container has no parent, and asking for it fails loudly. *)
Definition parentContainerOf (id : ResourceIdentifier) : Error + ResourceIdentifier :=
  match upToLastSlash (stripTrailingSlash (path id)) with
  | Some parent => inr (mkId parent)
  | None => inl (OtherError "root container has no parent")
  end.

Fixpoint endsWith (s suffix : string) : bool :=
  String.eqb s suffix ||
  match s with
  | EmptyString => false
  | String _ rest => endsWith rest suffix
  end.

(** A locator that keeps the ACL document of a resource next to it, under
    the same name extended with ".acl"; an ACL document governs itself. *)
Definition suffixAclManager : AclManager :=
  mkAclManager
    (fun id => inr (if endsWith (path id) ".acl" then id
                    else mkId (path id +++ ".acl")))
    (fun id => inr (endsWith (path id) ".acl")).

Fixpoint lookupDocument (documents : list (string * (Error + Stream))) (p : string)
  : Error + Representation :=
  match documents with
  | [] => inl NotFoundHttpError
  | (name, content) :: rest =>
      if String.eqb name p then
        match content with
        | inl e => inl e
        | inr stream => inr (mkRepresentation stream)
        end
      else lookupDocument rest p
  end.

(** A storage holding the given documents; any other identifier is not found. *)
Definition memoryStore (documents : list (string * (Error + Stream))) : ResourceStore :=
  mkResourceStore (fun id => lookupDocument documents (path id)).

(** A statement in the default graph, whose id is the empty string. *)
Definition triple (s p o : Term) : Quad := mkQuad s p o EmptyString.

Definition alice : string := "https://example.org/alice".
Definition bob : string := "https://example.org/bob".

(** The ACL document of /a/: read for everyone, by default scope, and
    control of /a/ and of the ACL document for alice, by direct scope. *)
Definition aclOfA : list Quad :=
  [triple "#public" ACL.default "/a/";
   triple "#public" ACL.mode ACL.Read;
   triple "#public" ACL.agentClass FOAF.Agent;
   triple "#owner" ACL.accessTo "/a/";
   triple "#owner" ACL.accessTo "/a/.acl";
   triple "#owner" ACL.mode ACL.Control;
   triple "#owner" ACL.agent alice].

(** What aclOfA gives the resources below /a/. *)
Definition publicRead : Store :=
  [triple "#public" ACL.default "/a/";
   triple "#public" ACL.mode ACL.Read;
   triple "#public" ACL.agentClass FOAF.Agent].

(** An ACL document of /a/b/c: control for alice by direct scope, and read
    for authenticated agents by default scope. *)
Definition aclOfC : list Quad :=
  [triple "#owner" ACL.accessTo "/a/b/c";
   triple "#owner" ACL.mode ACL.Control;
   triple "#owner" ACL.agent alice;
   triple "#members" ACL.default "/a/b/c";
   triple "#members" ACL.mode ACL.Read;
   triple "#members" ACL.agentClass FOAF.AuthenticatedAgent].

(** What aclOfC gives /a/b/c itself. *)
Definition ownerControl : Store :=
  [triple "#owner" ACL.accessTo "/a/b/c";
   triple "#owner" ACL.mode ACL.Control;
   triple "#owner" ACL.agent alice].

(** Only /a/ has an ACL document. *)
Definition inheritedPod : ResourceStore :=
  memoryStore [("/a/.acl", inr (mkStream aclOfA None))].

(** /a/b/c has an ACL document of its own. *)
Definition directPod : ResourceStore :=
  memoryStore [("/a/b/c.acl", inr (mkStream aclOfC None))].

(** No ACL document anywhere, not even at the root. *)
Definition emptyPod : ResourceStore := memoryStore [].

(** The storage breaks while the ACL document of /a/b/ is read. *)
Definition brokenPod : ResourceStore :=
  memoryStore [("/a/b/.acl", inl (OtherError "disk failure"))].

(** /a/ has the ACL document of inheritedPod. The storage also hands out a
    representation for the ACL document of /a/b/c, but the document is gone
    by the time its stream is read: the stream emits a NotFoundHttpError. *)
Definition vanishingPod : ResourceStore :=
  memoryStore
    [("/a/b/c.acl", inr (mkStream [] (Some NotFoundHttpError)));
     ("/a/.acl", inr (mkStream aclOfA None))].

(** A locator that finds ACL documents as suffixAclManager does, and fails
    when asked whether an identifier is an ACL document. *)
Definition blindAclManager : AclManager :=
  mkAclManager (getAcl suffixAclManager)
               (fun _ => inl (OtherError "locator failure")).

Definition anonymous : Credentials := mkCredentials None.
Definition asAgent (id : string) : Credentials := mkCredentials (Some id).

Definition pod (store : ResourceStore) : WebAclAuthorizer :=
  mkAuthorizer suffixAclManager store parentContainerOf.

Definition authorize (store : ResourceStore) (agent : Credentials) (target : string)
    (permissions : PermissionSet) : M unit :=
  handle (pod store) 10 (mkArgs agent (mkId target) permissions).

(* ------------------------------------------------------------------ *)
(** ** The store: membership lemmas *)

Lemma Quad_eqb_eq (a b : Quad) : Quad_eqb a b = true <-> a = b.
Proof.
  unfold Quad_eqb. rewrite !andb_true_iff, !String.eqb_eq.
  destruct a, b; simpl. split.
  - intros [[[-> ->] ->] ->]. reflexivity.
  - intros H. injection H. auto.
Qed.

Lemma existsb_Quad_eqb (q : Quad) (store : Store) :
  existsb (Quad_eqb q) store = true <-> In q store.
Proof.
  rewrite existsb_exists. split.
  - intros [x [Hx Hq]]. apply Quad_eqb_eq in Hq. now subst.
  - intros H. exists q. split; [assumption | now apply Quad_eqb_eq].
Qed.

Lemma In_addQuad (store : Store) (x q : Quad) :
  In q (addQuad store x) <-> In q store \/ q = x.
Proof.
  unfold addQuad. destruct (existsb (Quad_eqb x) store) eqn:E.
  - apply existsb_Quad_eqb in E. split; [auto | intros [H | ->]; assumption].
  - rewrite in_app_iff. simpl. intuition congruence.
Qed.

Lemma In_addQuads (quads : list Quad) (store : Store) (q : Quad) :
  In q (addQuads store quads) <-> In q store \/ In q quads.
Proof.
  unfold addQuads. revert store.
  induction quads as [| x quads IH]; intros store; simpl.
  - tauto.
  - rewrite IH, In_addQuad. intuition congruence.
Qed.

Lemma NoDup_addQuad (store : Store) (x : Quad) :
  NoDup store -> NoDup (addQuad store x).
Proof.
  intros H. unfold addQuad. destruct (existsb (Quad_eqb x) store) eqn:E; [assumption |].
  apply NoDup_app; [assumption | repeat constructor; simpl; tauto |].
  intros a Ha [<- | []]. apply existsb_Quad_eqb in Ha. congruence.
Qed.

Lemma NoDup_addQuads (quads : list Quad) (store : Store) :
  NoDup store -> NoDup (addQuads store quads).
Proof.
  unfold addQuads. revert store.
  induction quads as [| x quads IH]; intros store H; simpl; [assumption |].
  apply IH, NoDup_addQuad, H.
Qed.

Lemma matches_Some (p t : Term) : matches (Some p) t = true <-> t = p.
Proof. simpl. rewrite String.eqb_eq. intuition congruence. Qed.

Lemma In_getQuads (store : Store) (s p o g : option Term) (q : Quad) :
  In q (getQuads store s p o g) <->
  In q store /\ matches s (subject q) = true /\ matches p (predicate q) = true
  /\ matches o (object q) = true /\ matches g (graph q) = true.
Proof.
  unfold getQuads. rewrite filter_In, !andb_true_iff. tauto.
Qed.

Lemma countQuads_pos (store : Store) (s p o : Term) :
  Nat.ltb 0 (countQuads store (Some s) (Some p) (Some o) None) = true <->
  holds store s p o.
Proof.
  unfold countQuads, holds. rewrite Nat.ltb_lt. split.
  - intros H. destruct (getQuads store (Some s) (Some p) (Some o) None) as [| q l] eqn:E.
    + simpl in H. lia.
    + assert (Hq : In q (getQuads store (Some s) (Some p) (Some o) None))
        by (rewrite E; now left).
      apply In_getQuads in Hq. destruct Hq as (Hin & Hs & Hp & Ho & _).
      apply matches_Some in Hs, Hp, Ho. exists (graph q).
      destruct q; simpl in *; subst. assumption.
  - intros [g Hg].
    assert (Hq : In (mkQuad s p o g) (getQuads store (Some s) (Some p) (Some o) None)).
    { apply In_getQuads. simpl. rewrite !String.eqb_refl. auto. }
    destruct (getQuads store (Some s) (Some p) (Some o) None); [destruct Hq | simpl; lia].
Qed.

(** The quads selected by [selectBySubject]: those of the store whose
    subject is the subject of a statement with the given predicate and
    object. *)
Lemma In_selectBySubject (store : Store) (p o : string) (q : Quad) :
  In q (selectBySubject store p o) <->
  In q store /\
  exists q', In q' store /\ subject q' = subject q /\ predicate q' = p /\ object q' = o.
Proof.
  unfold selectBySubject.
  set (auths := map subject (getQuads store None (Some p) (Some o) None)).
  assert (Hgen : forall (l : list Term) (acc : Store),
    In q (fold_left (fun newStore subject =>
                       addQuads newStore (getQuads store (Some subject) None None None))
                    l acc) <->
    In q acc \/ (In q store /\ In (subject q) l)).
  { induction l as [| s l IH]; intros acc; simpl.
    - tauto.
    - rewrite IH, In_addQuads, In_getQuads. simpl.
      rewrite String.eqb_eq. intuition (subst; auto). }
  rewrite Hgen. simpl. unfold auths. rewrite in_map_iff.
  split.
  - intros [[] | [Hin [q' [Hs Hq']]]]. split; [assumption |].
    apply In_getQuads in Hq'. destruct Hq' as (Hin' & _ & Hp & Ho & _).
    apply matches_Some in Hp, Ho. exists q'. auto.
  - intros [Hin [q' (Hin' & Hs & Hp & Ho)]]. right. split; [assumption |].
    exists q'. split; [assumption |]. apply In_getQuads. simpl.
    rewrite <- Hp, <- Ho, !String.eqb_refl. auto.
Qed.

Lemma NoDup_selectBySubject (store : Store) (p o : string) :
  NoDup (selectBySubject store p o).
Proof.
  unfold selectBySubject.
  generalize (map subject (getQuads store None (Some p) (Some o) None)).
  assert (H : NoDup (@nil Quad)) by constructor. revert H.
  generalize (@nil Quad).
  intros acc H l. revert acc H.
  induction l as [| s l IH]; intros acc H; simpl; [assumption |].
  apply IH, NoDup_addQuads, H.
Qed.

(* ------------------------------------------------------------------ *)
(** ** The effect monad: equations *)

Lemma bind_Return {A B} (t : list Event) (a : A) (f : A -> M B) :
  bind (t, Return a) f = (t ++ fst (f a), snd (f a)).
Proof. simpl. destruct (f a). reflexivity. Qed.

Lemma bind_Throw {A B} (t : list Event) (e : Error) (f : A -> M B) :
  bind (t, Throw e) f = (t, Throw e).
Proof. reflexivity. Qed.

Lemma bind_OutOfFuel {A B} (t : list Event) (f : A -> M B) :
  bind (t, OutOfFuel) f = (t, OutOfFuel).
Proof. reflexivity. Qed.

Lemma countEvents_app (p : Event -> bool) (t t' : list Event) :
  countEvents p (t ++ t') = countEvents p t + countEvents p t'.
Proof. unfold countEvents. now rewrite filter_app, length_app. Qed.

(* ------------------------------------------------------------------ *)
(** ** Resolution: equations of readAcl and getAclRecursive *)

Section ResolutionFacts.

Variable this : WebAclAuthorizer.

Lemma readAcl_outcome (id : ResourceIdentifier) :
  snd (readAcl this id) =
  match fetchAcl this id with
  | inl e => Throw e
  | inr representation => Return representation
  end.
Proof.
  unfold readAcl, fetchAcl.
  destruct (getAcl (aclManager this) id) as [e | acl]; simpl; [reflexivity |].
  destruct (getRepresentation (resourceStore this) acl) as [e | representation];
    reflexivity.
Qed.

(** One probe asks the locator once and the storage at most once, and never
    asks whether the identifier is an ACL document. *)
Lemma readAcl_events (id : ResourceIdentifier) :
  countEvents isGetAclEvent (fst (readAcl this id)) = 1 /\
  countEvents isResolutionEvent (fst (readAcl this id)) <= 2 /\
  countEvents isIsAclEvent (fst (readAcl this id)) = 0.
Proof.
  unfold readAcl.
  destruct (getAcl (aclManager this) id) as [e | acl]; simpl; [cbv; lia |].
  destruct (getRepresentation (resourceStore this) acl) as [e | representation];
    cbv; lia.
Qed.

(** filterData performs no call and writes no log line. *)
Lemma filterData_silent (representation : Representation) (p o : string) :
  fst (filterData representation p o) = [].
Proof. unfold filterData. destruct (failure (data representation)); reflexivity. Qed.

Lemma filterData_outcome (representation : Representation) (p o : string) :
  snd (filterData representation p o) =
  match failure (data representation) with
  | Some e => Throw e
  | None => Return (selectBySubject (addQuads [] (emitted (data representation))) p o)
  end.
Proof. unfold filterData. destruct (failure (data representation)); reflexivity. Qed.

(** One level of the walk, trace and outcome. *)
Lemma getAclRecursive_S (fuel : nat) (id : ResourceIdentifier) (recurse : option bool) :
  getAclRecursive this (S fuel) id recurse =
  match snd (readAcl this id) with
  | Return representation =>
      (startLine id :: fst (readAcl this id),
       snd (filterData representation (scopeOf recurse) (path id)))
  | Throw e =>
      if isNotFound e then
        match getParentContainer this id with
        | inl e' =>
            (startLine id :: fst (readAcl this id)
               ++ [notFoundLine id; parentLine id], Throw e')
        | inr parent =>
            (startLine id :: fst (readAcl this id)
               ++ [notFoundLine id; parentLine id]
               ++ fst (getAclRecursive this fuel parent (Some true)),
             snd (getAclRecursive this fuel parent (Some true)))
        end
      else
        (startLine id :: fst (readAcl this id) ++ [errorLine id e], Throw e)
  | OutOfFuel => (startLine id :: fst (readAcl this id), OutOfFuel)
  end.
Proof.
  cbn [getAclRecursive]. unfold scopeOf.
  destruct (readAcl this id) as [t [representation | e |]].
  - cbn [bind tryCatch ret log emit snd fst].
    generalize (filterData_silent representation
                  (if truthy recurse then ACL.default else ACL.accessTo) (path id)).
    generalize (filterData representation
                  (if truthy recurse then ACL.default else ACL.accessTo) (path id)).
    intros [t' o'] Hs. simpl in Hs. subst t'. simpl. now rewrite !app_nil_r.
  - simpl. destruct (isNotFound e); simpl.
    + destruct (getParentContainer this id) as [e' | parent]; simpl.
      * rewrite <- ?app_assoc. reflexivity.
      * destruct (getAclRecursive this fuel parent (Some true)) as [t' o'].
        simpl. rewrite <- ?app_assoc. reflexivity.
    + rewrite <- ?app_assoc. reflexivity.
  - reflexivity.
Qed.

Lemma getAclRecursive_outcome (fuel : nat) (id : ResourceIdentifier)
    (recurse : option bool) :
  snd (getAclRecursive this (S fuel) id recurse) =
  match fetchAcl this id with
  | inr representation => snd (filterData representation (scopeOf recurse) (path id))
  | inl e =>
      if isNotFound e then
        match getParentContainer this id with
        | inl e' => Throw e'
        | inr parent => snd (getAclRecursive this fuel parent (Some true))
        end
      else Throw e
  end.
Proof.
  rewrite getAclRecursive_S, readAcl_outcome.
  destruct (fetchAcl this id) as [e | representation]; [| reflexivity].
  destruct (isNotFound e); [| reflexivity].
  destruct (getParentContainer this id); reflexivity.
Qed.

End ResolutionFacts.

(* ------------------------------------------------------------------ *)
(** ** Climbing the hierarchy *)

Section WalkFacts.

Variable this : WebAclAuthorizer.

Lemma climb_S_inv (n : nat) (id top : ResourceIdentifier) :
  climb this (S n) id = Some top ->
  fetchAcl this id = inl NotFoundHttpError /\
  exists parent, getParentContainer this id = inr parent /\
                 climb this n parent = Some top.
Proof.
  simpl. destruct (fetchAcl this id) as [[| | | |] |]; try discriminate.
  destruct (getParentContainer this id) as [| parent]; try discriminate.
  eauto.
Qed.

(** After [n] levels without an ACL document the walk is at the [n]-th
    ancestor, with what is left of the fuel. *)
Lemma climb_outcome (n fuel : nat) (id top : ResourceIdentifier) (recurse : option bool) :
  climb this n id = Some top ->
  snd (getAclRecursive this (n + fuel) id recurse) =
  snd (getAclRecursive this fuel top (flagAfter n recurse)).
Proof.
  revert id recurse. induction n as [| n IH]; intros id recurse H.
  - simpl in H. injection H as ->. reflexivity.
  - apply climb_S_inv in H. destruct H as [Hf [parent [Hp Hc]]].
    change (S n + fuel) with (S (n + fuel)).
    rewrite getAclRecursive_outcome, Hf, Hp. simpl isNotFound. cbv iota.
    rewrite (IH parent (Some true) Hc). destruct n; reflexivity.
Qed.

Lemma climb_trace (n fuel : nat) (id top : ResourceIdentifier) (recurse : option bool) :
  climb this n id = Some top ->
  exists before,
    fst (getAclRecursive this (n + fuel) id recurse) =
    before ++ fst (getAclRecursive this fuel top (flagAfter n recurse)) /\
    countEvents isGetAclEvent before = n.
Proof.
  revert id recurse. induction n as [| n IH]; intros id recurse H.
  - simpl in H. injection H as ->. exists []. split; reflexivity.
  - apply climb_S_inv in H. destruct H as [Hf [parent [Hp Hc]]].
    change (S n + fuel) with (S (n + fuel)).
    rewrite getAclRecursive_S, readAcl_outcome, Hf, Hp. simpl isNotFound. cbv iota.
    destruct (IH parent (Some true) Hc) as [before [Ht Hn]].
    exists (startLine id :: fst (readAcl this id)
              ++ [notFoundLine id; parentLine id] ++ before).
    split.
    + cbn [fst]. rewrite Ht.
      repeat (rewrite <- app_comm_cons || rewrite <- app_assoc).
      destruct n; reflexivity.
    + change (startLine id :: fst (readAcl this id)
                ++ [notFoundLine id; parentLine id] ++ before)
        with ([startLine id] ++ fst (readAcl this id)
                ++ [notFoundLine id; parentLine id] ++ before).
      rewrite !countEvents_app, Hn.
      destruct (readAcl_events this id) as [-> _]. reflexivity.
Qed.

(** Resolution never asks the locator whether an identifier is an ACL
    document. *)
Lemma getAclRecursive_no_IsAcl (fuel : nat) (id : ResourceIdentifier)
    (recurse : option bool) :
  countEvents isIsAclEvent (fst (getAclRecursive this fuel id recurse)) = 0.
Proof.
  revert id recurse. induction fuel as [| fuel IH]; intros id recurse.
  - reflexivity.
  - rewrite getAclRecursive_S.
    destruct (readAcl_events this id) as (_ & _ & H0).
    destruct (snd (readAcl this id)) as [store | e |]; cbn [fst].
    + change (startLine id :: ?t) with ([startLine id] ++ t).
      rewrite countEvents_app, H0. reflexivity.
    + destruct (isNotFound e).
      * destruct (getParentContainer this id) as [e' | parent]; cbn [fst].
        -- change (startLine id :: ?t) with ([startLine id] ++ t).
           rewrite !countEvents_app, H0. reflexivity.
        -- change (startLine id :: ?t) with ([startLine id] ++ t).
           rewrite !countEvents_app, H0, IH. reflexivity.
      * cbn [fst]. change (startLine id :: ?t) with ([startLine id] ++ t).
        rewrite !countEvents_app, H0. reflexivity.
    + change (startLine id :: ?t) with ([startLine id] ++ t).
      rewrite countEvents_app, H0. reflexivity.
Qed.

(** X17: a namespace utility that gives the root as its own parent makes the
    walk run for ever once no ACL document is found at the root. *)
Lemma getAclRecursive_loops_at_root (root : ResourceIdentifier) :
  fetchAcl this root = inl NotFoundHttpError ->
  getParentContainer this root = inr root ->
  forall fuel recurse, snd (getAclRecursive this fuel root recurse) = OutOfFuel.
Proof.
  intros Hf Hp. induction fuel as [| fuel IH]; intros recurse.
  - reflexivity.
  - rewrite getAclRecursive_outcome, Hf, Hp. simpl. apply IH.
Qed.

End WalkFacts.

(* ------------------------------------------------------------------ *)
(** ** The permission check *)

Lemma capitalize_keyName (m : Mode) :
  exists capitalized,
    capitalize (keyName m) = inr capitalized /\ ACL_get capitalized = Some (modeIRI m).
Proof. destruct m; eexists; split; reflexivity. Qed.

(** checkPermission on a mode of the permission set: silent success when the
    mode is granted, one warning and the error of the credentials otherwise. *)
Lemma checkPermission_mode (agent : Credentials) (store : Store) (m : Mode) :
  checkPermission agent store (keyName m) =
  if isModeGranted store agent m then ([], Return tt)
  else ([denialLine agent (keyName m)], Throw (denialError agent)).
Proof.
  destruct (capitalize_keyName m) as [capitalized [Hc Ha]].
  unfold checkPermission, isModeGranted, denialLine, denialError.
  rewrite Hc. cbn [lift ret bind]. rewrite Ha.
  destruct (existsb _ _); cbn [negb]; [reflexivity |].
  destruct (webID agent); reflexivity.
Qed.

Lemma hasAccess_iff (agent : Credentials) (auth : Term) (store : Store) :
  hasAccess agent auth store = true <->
  holds store auth ACL.agentClass FOAF.Agent \/
  (webID agent <> None /\ holds store auth ACL.agentClass FOAF.AuthenticatedAgent) \/
  (exists w, webID agent = Some w /\ holds store auth ACL.agent w).
Proof.
  unfold hasAccess.
  destruct (Nat.ltb 0 (countQuads store (Some auth) (Some ACL.agentClass)
                                  (Some FOAF.Agent) None)) eqn:Hpublic.
  - apply countQuads_pos in Hpublic. tauto.
  - assert (Hno : ~ holds store auth ACL.agentClass FOAF.Agent).
    { intros H. apply countQuads_pos in H. congruence. }
    destruct (webID agent) as [w |].
    + destruct (Nat.ltb 0 (countQuads store (Some auth) (Some ACL.agentClass)
                                      (Some FOAF.AuthenticatedAgent) None)) eqn:Hauth.
      * apply countQuads_pos in Hauth. split; [intros _ | reflexivity].
        right. left. split; [discriminate | assumption].
      * rewrite countQuads_pos. split.
        -- intros H. right. right. exists w. auto.
        -- intros [H | [[_ H] | [w' [Hw H]]]].
           ++ contradiction.
           ++ apply countQuads_pos in H. congruence.
           ++ injection Hw as <-. assumption.
    + split; [discriminate |].
      intros [H | [[H _] | [w [H _]]]]; [contradiction | congruence | discriminate].
Qed.

Lemma isModeGranted_iff (store : Store) (agent : Credentials) (m : Mode) :
  isModeGranted store agent m = true <->
  exists auth, holds store auth ACL.mode (modeIRI m) /\ hasAccess agent auth store = true.
Proof.
  unfold isModeGranted. rewrite existsb_exists. split.
  - intros [auth [Hin Hacc]]. exists auth. split; [| assumption].
    apply in_map_iff in Hin. destruct Hin as [q [<- Hq]].
    apply In_getQuads in Hq. destruct Hq as (Hin & _ & Hp & Ho & _).
    apply matches_Some in Hp, Ho. exists (graph q).
    destruct q; simpl in *; subst. assumption.
  - intros [auth [[g Hg] Hacc]]. exists auth. split; [| assumption].
    apply in_map_iff. exists (mkQuad auth ACL.mode (modeIRI m) g). split; [reflexivity |].
    apply In_getQuads. simpl. rewrite !String.eqb_refl. auto.
Qed.

(* ------------------------------------------------------------------ *)
(** ** The loop over the permission set *)

Lemma bind_ret_l {A B} (a : A) (f : A -> M B) : bind (ret a) f = f a.
Proof. unfold ret, bind. destruct (f a). reflexivity. Qed.

Lemma forEach_filter {A} (keep : A -> bool) (body : A -> M unit) (l : list A) :
  forEach l (fun x => if keep x then body x else ret tt) = forEach (filter keep l) body.
Proof.
  induction l as [| x l IH]; [reflexivity |].
  cbn [forEach filter]. destruct (keep x); cbn [forEach].
  - now rewrite IH.
  - rewrite bind_ret_l. exact IH.
Qed.

(** The loop leaves at the first element whose body throws. *)
Lemma forEach_first_throw {A} (body : A -> M unit) (before after : list A) (x : A)
    (t : list Event) (e : Error) :
  (forall y, In y before -> body y = ([], Return tt)) ->
  body x = (t, Throw e) ->
  forEach (before ++ x :: after) body = (t, Throw e).
Proof.
  induction before as [| y before IH]; intros Hb Hx; simpl.
  - now rewrite Hx.
  - rewrite (Hb y (or_introl eq_refl)).
    change (@nil Event, Return tt) with (ret tt). rewrite bind_ret_l.
    apply IH; [| assumption]. intros z Hz. apply Hb. now right.
Qed.

Lemma forEach_checkPermission_Return (agent : Credentials) (store : Store)
    (modes : list Mode) :
  snd (forEach modes (fun key => checkPermission agent store (keyName key))) = Return tt <->
  forall key, In key modes -> isModeGranted store agent key = true.
Proof.
  induction modes as [| m modes IH]; simpl.
  - split; [intros _ key [] | reflexivity].
  - rewrite checkPermission_mode. destruct (isModeGranted store agent m) eqn:E.
    + change (@nil Event, Return tt) with (ret tt). rewrite bind_ret_l, IH.
      split.
      * intros H key [<- | Hin]; [assumption | now apply H].
      * intros H key Hin. apply H. now right.
    + simpl. split; [discriminate |].
      intros H. specialize (H m (or_introl eq_refl)). congruence.
Qed.

(* ------------------------------------------------------------------ *)
(** ** handle: the two phases *)

Section HandleFacts.

Variable this : WebAclAuthorizer.

(** The permission phase of handle, for a store and the answer of isAcl. *)
Lemma handle_resolved (fuel : nat) (input : AuthorizerArgs) (t : list Event)
    (store : Store) :
  getAclRecursive this fuel (identifier input) None = (t, Return store) ->
  handle this fuel input =
  match isAcl (aclManager this) (identifier input) with
  | inl e => (t ++ [IsAcl (identifier input)], Throw e)
  | inr true =>
      (t ++ IsAcl (identifier input)
         :: fst (checkPermission (credentials input) store (keyName control)),
       snd (checkPermission (credentials input) store (keyName control)))
  | inr false =>
      (t ++ IsAcl (identifier input)
         :: fst (forEach (requested (permissions input))
                         (fun key => checkPermission (credentials input) store
                                                     (keyName key))),
       snd (forEach (requested (permissions input))
                    (fun key => checkPermission (credentials input) store
                                                (keyName key))))
  end.
Proof.
  intros H. unfold handle. rewrite H, bind_Return.
  destruct (isAcl (aclManager this) (identifier input)) as [e | [|]]; simpl.
  - reflexivity.
  - destruct (checkPermission _ _ _). reflexivity.
  - unfold requested. rewrite <- forEach_filter.
    destruct (forEach _ _). reflexivity.
Qed.

Lemma handle_resolution_throws (fuel : nat) (input : AuthorizerArgs) (e : Error) :
  snd (getAclRecursive this fuel (identifier input) None) = Throw e ->
  handle this fuel input =
  (fst (getAclRecursive this fuel (identifier input) None), Throw e).
Proof.
  intros H. unfold handle.
  destruct (getAclRecursive this fuel (identifier input) None) as [t o].
  simpl in H. subst o. reflexivity.
Qed.

End HandleFacts.

(* ------------------------------------------------------------------ *)
(** ** Properties of the permission evaluator *)

(** C2: a mode that checkPermission denies is not granted by the store, and
    the error thrown is UnauthorizedHttpError when the credentials carry no
    webID and ForbiddenHttpError when they carry one. *)
Theorem denial_kind_follows_credentials (agent : Credentials) (store : Store)
    (m : Mode) (e : Error) :
  snd (checkPermission agent store (keyName m)) = Throw e ->
  isModeGranted store agent m = false /\
  (webID agent = None -> e = UnauthorizedHttpError) /\
  (forall w, webID agent = Some w -> e = ForbiddenHttpError).
Proof.
  rewrite checkPermission_mode. unfold denialError.
  destruct (isModeGranted store agent m); simpl; [discriminate |].
  intros H. injection H as <-. split; [reflexivity |].
  destruct (webID agent); split; intros; congruence.
Qed.

Lemma denial_kind_follows_credentials_witness :
  snd (checkPermission (asAgent bob) [] (keyName write)) = Throw ForbiddenHttpError /\
  (isModeGranted [] (asAgent bob) write = false /\
   (webID (asAgent bob) = None -> ForbiddenHttpError = UnauthorizedHttpError) /\
   (forall w, webID (asAgent bob) = Some w -> ForbiddenHttpError = ForbiddenHttpError)).
Proof.
  split.
  - reflexivity.
  - apply (denial_kind_follows_credentials (asAgent bob) [] write ForbiddenHttpError).
    reflexivity.
Defined.

(** C6: checkPermission lets a mode pass exactly when some subject of the
    store has a mode statement for that mode and, besides, an agentClass
    statement for foaf:Agent, or an agentClass statement for
    foaf:AuthenticatedAgent while the credentials carry a webID, or an agent
    statement whose object is the webID of the credentials. *)
Theorem mode_granted_iff (store : Store) (agent : Credentials) (m : Mode) :
  snd (checkPermission agent store (keyName m)) = Return tt <->
  exists auth,
    holds store auth ACL.mode (modeIRI m) /\
    (holds store auth ACL.agentClass FOAF.Agent \/
     (webID agent <> None /\ holds store auth ACL.agentClass FOAF.AuthenticatedAgent) \/
     (exists w, webID agent = Some w /\ holds store auth ACL.agent w)).
Proof.
  rewrite checkPermission_mode.
  assert (H : isModeGranted store agent m = true <->
              snd (if isModeGranted store agent m then (@nil Event, Return tt)
                   else ([denialLine agent (keyName m)], Throw (denialError agent)))
              = Return tt).
  { destruct (isModeGranted store agent m); simpl; split; congruence. }
  rewrite <- H, isModeGranted_iff.
  split; intros [auth [Hm Ha]]; exists auth; (split; [assumption |]);
    now apply hasAccess_iff.
Qed.

Section HandleProperties.

Variable this : WebAclAuthorizer.

(** C1: when isAcl answers that the target is an ACL document, handle is the
    resolution of the target followed by the check of the one mode
    "control" on the resolved store. The permission set of the request is
    not read: any two permission sets give the same trace and outcome. *)
Theorem handle_acl_target_checks_control (fuel : nat) (agent : Credentials)
    (id : ResourceIdentifier) (perms : PermissionSet) :
  isAcl (aclManager this) id = inr true ->
  handle this fuel (mkArgs agent id perms) =
    (store <- getAclRecursive this fuel id None ;;
     emit (IsAcl id) ;;
     checkPermission agent store "control") /\
  (forall perms', handle this fuel (mkArgs agent id perms') =
                  handle this fuel (mkArgs agent id perms)) /\
  (forall t store,
      getAclRecursive this fuel id None = (t, Return store) ->
      snd (handle this fuel (mkArgs agent id perms)) =
      if isModeGranted store agent control then Return tt
      else Throw (denialError agent)).
Proof.
  intros Hacl.
  assert (Heq : forall p, handle this fuel (mkArgs agent id p) =
    (store <- getAclRecursive this fuel id None ;;
     emit (IsAcl id) ;;
     checkPermission agent store "control")).
  { intros p. unfold handle. cbn [identifier credentials permissions].
    destruct (getAclRecursive this fuel id None) as [t [store | e |]];
      [| reflexivity | reflexivity].
    rewrite !bind_Return. rewrite Hacl. reflexivity. }
  split; [apply Heq |]. split.
  - intros perms'. now rewrite !Heq.
  - intros t store Hres.
    rewrite (handle_resolved this fuel (mkArgs agent id perms) t store Hres).
    cbn [identifier credentials permissions]. rewrite Hacl. cbn [snd].
    rewrite checkPermission_mode.
    destruct (isModeGranted store agent control); reflexivity.
Qed.

(** C7: when isAcl answers that the target is not an ACL document and the
    resolution returned a store, handle checks the requested keys of the
    permission set in key order and nothing else. It returns exactly when
    every requested mode is granted, so also when none is requested; and
    when a requested mode is denied while all the requested modes before
    it are granted, the trace ends with the warning for that mode and the
    outcome is the error for the credentials, whatever follows it in the
    permission set. *)
Theorem handle_resource_target_checks_requested (fuel : nat) (agent : Credentials)
    (id : ResourceIdentifier) (perms : PermissionSet) (t : list Event) (store : Store) :
  getAclRecursive this fuel id None = (t, Return store) ->
  isAcl (aclManager this) id = inr false ->
  handle this fuel (mkArgs agent id perms) =
    (t ++ IsAcl id
       :: fst (forEach (requested perms)
                       (fun key => checkPermission agent store (keyName key))),
     snd (forEach (requested perms)
                  (fun key => checkPermission agent store (keyName key)))) /\
  (snd (handle this fuel (mkArgs agent id perms)) = Return tt <->
   forall key, In key (requested perms) -> isModeGranted store agent key = true) /\
  (requested perms = [] -> handle this fuel (mkArgs agent id perms)
                           = (t ++ [IsAcl id], Return tt)) /\
  (forall before key after,
      requested perms = before ++ key :: after ->
      (forall k, In k before -> isModeGranted store agent k = true) ->
      isModeGranted store agent key = false ->
      handle this fuel (mkArgs agent id perms) =
      (t ++ [IsAcl id; denialLine agent (keyName key)], Throw (denialError agent))).
Proof.
  intros Hres Hacl.
  pose proof (handle_resolved this fuel (mkArgs agent id perms) t store Hres) as Heq.
  cbn [identifier credentials permissions] in Heq. rewrite Hacl in Heq.
  split; [exact Heq |]. split; [| split].
  - rewrite Heq. cbn [snd]. apply forEach_checkPermission_Return.
  - intros Hnone. rewrite Heq, Hnone. reflexivity.
  - intros before key after Hsplit Hbefore Hkey.
    rewrite Heq, Hsplit.
    rewrite (forEach_first_throw
               (fun k => checkPermission agent store (keyName k))
               before after key [denialLine agent (keyName key)] (denialError agent)).
    + reflexivity.
    + intros k Hk. rewrite checkPermission_mode, (Hbefore k Hk). reflexivity.
    + rewrite checkPermission_mode, Hkey. reflexivity.
Qed.

End HandleProperties.

(* ------------------------------------------------------------------ *)
(** ** Properties of filterData *)

(** What filterData keeps of the quads of a stream. *)
Lemma In_select_imported (quads : list Quad) (p o : string) (q : Quad) :
  In q (selectBySubject (addQuads [] quads) p o) <->
  In q quads /\
  exists q', In q' quads /\ subject q' = subject q /\ predicate q' = p /\ object q' = o.
Proof.
  rewrite In_selectBySubject, In_addQuads. simpl. split.
  - intros [[[] | Hq] [q' [Hq' H]]]. split; [assumption |].
    exists q'. apply In_addQuads in Hq'. simpl in Hq'. intuition.
  - intros [Hq [q' [Hq' H]]]. split; [now right |].
    exists q'. rewrite In_addQuads. simpl. intuition.
Qed.

(** C8: filterData on two streams that emit the same quads in different
    orders returns stores with the same quads (each once), namely the
    emitted quads whose subject is also the subject of an emitted quad with
    the given predicate and object. *)
Theorem filterData_order_insensitive (quads1 quads2 : list Quad) (p o : string) :
  Permutation quads1 quads2 ->
  exists store1 store2,
    filterData (mkRepresentation (mkStream quads1 None)) p o = ([], Return store1) /\
    filterData (mkRepresentation (mkStream quads2 None)) p o = ([], Return store2) /\
    (forall q, In q store1 <-> In q store2) /\
    Permutation store1 store2 /\
    (forall q, In q store1 <->
               In q quads1 /\
               exists q', In q' quads1 /\ subject q' = subject q /\
                          predicate q' = p /\ object q' = o).
Proof.
  intros Hperm.
  exists (selectBySubject (addQuads [] quads1) p o),
         (selectBySubject (addQuads [] quads2) p o).
  pose proof (fun quads => In_select_imported quads p o) as Hchar.
  assert (Hsame : forall q,
    In q (selectBySubject (addQuads [] quads1) p o) <->
    In q (selectBySubject (addQuads [] quads2) p o)).
  { intros q. rewrite !Hchar. split.
    - intros [Hq [q' [Hq' H]]]. split; [eapply Permutation_in; eassumption |].
      exists q'. split; [eapply Permutation_in; eassumption | assumption].
    - apply Permutation_sym in Hperm.
      intros [Hq [q' [Hq' H]]]. split; [eapply Permutation_in; eassumption |].
      exists q'. split; [eapply Permutation_in; eassumption | assumption]. }
  split; [reflexivity |]. split; [reflexivity |]. split; [exact Hsame |].
  split; [| exact (Hchar quads1)].
  apply NoDup_Permutation; [apply NoDup_selectBySubject .. | exact Hsame].
Qed.

(* ------------------------------------------------------------------ *)
(** ** Properties of the resolution *)

Lemma checkPermission_trace (agent : Credentials) (store : Store) (mode : string) :
  countEvents isResolutionEvent (fst (checkPermission agent store mode)) = 0.
Proof.
  unfold checkPermission. destruct (capitalize mode) as [e | capitalized]; [reflexivity |].
  cbn [lift ret bind]. destruct (negb _); [| reflexivity].
  destruct (webID agent); reflexivity.
Qed.

Lemma forEach_trace {A} (p : Event -> bool) (body : A -> M unit) (l : list A) :
  (forall x, countEvents p (fst (body x)) = 0) ->
  countEvents p (fst (forEach l body)) = 0.
Proof.
  intros H. induction l as [| x l IH]; [reflexivity |].
  cbn [forEach]. specialize (H x).
  destruct (body x) as [t [[] | e |]]; cbn [fst] in H.
  - rewrite bind_Return. cbn [fst]. now rewrite countEvents_app, H, IH.
  - exact H.
  - exact H.
Qed.

Section ResolutionProperties.

Variable this : WebAclAuthorizer.

(** The level at which the walk stops asks the locator once. *)
Lemma stopping_level_trace (fuel : nat) (id : ResourceIdentifier) (recurse : option bool) :
  (forall parent, getParentContainer this id = inr parent ->
                  fetchAcl this id <> inl NotFoundHttpError) ->
  countEvents isGetAclEvent (fst (getAclRecursive this (S fuel) id recurse)) = 1.
Proof.
  intros Hstop. rewrite getAclRecursive_S.
  pose proof (readAcl_outcome this id) as Ho.
  destruct (readAcl_events this id) as (H1 & _ & _).
  destruct (snd (readAcl this id)) as [store | e |]; cbn [fst].
  - change (startLine id :: ?t) with ([startLine id] ++ t).
    rewrite countEvents_app, H1. reflexivity.
  - destruct e; cbn [isNotFound];
      try (cbn [fst]; change (startLine id :: ?t) with ([startLine id] ++ t);
           rewrite !countEvents_app, H1; reflexivity).
    destruct (getParentContainer this id) as [e' | parent]; cbn [fst].
    + change (startLine id :: ?t) with ([startLine id] ++ t).
      rewrite !countEvents_app, H1. reflexivity.
    + exfalso. apply (Hstop parent eq_refl).
      destruct (fetchAcl this id); congruence.
  - change (startLine id :: ?t) with ([startLine id] ++ t).
    rewrite countEvents_app, H1. reflexivity.
Qed.

(** C5: the probe of the target itself filters the quads of the ACL
    document by acl:accessTo, and a probe of an ancestor, reached after the
    levels below it had no ACL document, filters by acl:default; the two
    predicates differ, and every quad that is kept belongs to a subject
    with a statement of the predicate of that probe. *)
Theorem probe_scope_by_depth (fuel n : nat) (id top : ResourceIdentifier)
    (quads : list Quad) :
  climb this n id = Some top ->
  fetchAcl this top = inr (quadsOf quads) ->
  ACL.accessTo <> ACL.default /\
  (n = 0 ->
   snd (getAclRecursive this (n + S fuel) id None) =
   Return (selectBySubject (addQuads [] quads) ACL.accessTo (path id))) /\
  (0 < n ->
   snd (getAclRecursive this (n + S fuel) id None) =
   Return (selectBySubject (addQuads [] quads) ACL.default (path top))) /\
  (forall store q,
      snd (getAclRecursive this (n + S fuel) id None) = Return store ->
      In q store ->
      exists q', In q' quads /\ subject q' = subject q /\
                 predicate q' = (if Nat.eqb n 0 then ACL.accessTo else ACL.default)).
Proof.
  intros Hclimb Hfetch.
  pose proof (climb_outcome this n (S fuel) id top None Hclimb) as Hwalk.
  rewrite getAclRecursive_outcome, Hfetch, filterData_outcome in Hwalk.
  cbn [quadsOf data failure emitted] in Hwalk.
  split; [discriminate |]. split; [| split].
  - intros ->. simpl in Hclimb. injection Hclimb as ->. exact Hwalk.
  - intros Hn. destruct n as [| n]; [lia |]. exact Hwalk.
  - intros store q Hstore Hq. rewrite Hwalk in Hstore. injection Hstore as <-.
    apply In_select_imported in Hq.
    destruct Hq as [_ [q' (Hq' & Hs & Hp & _)]]. exists q'.
    split; [assumption |]. split; [assumption |].
    rewrite Hp. destruct n; reflexivity.
Qed.

(** C9: a probe of an ancestor filters the acl:default statements by the
    path of that ancestor. The store it returns holds the quads of the
    subjects that have a default statement for the path of the ancestor;
    when no default statement of the document names that path (they name
    the original target, say), the store is empty. *)
Theorem ancestor_probe_filters_by_own_path (fuel n : nat) (id top : ResourceIdentifier)
    (quads : list Quad) (recurse : option bool) :
  climb this (S n) id = Some top ->
  fetchAcl this top = inr (quadsOf quads) ->
  exists store,
    snd (getAclRecursive this (S n + S fuel) id recurse) = Return store /\
    store = selectBySubject (addQuads [] quads) ACL.default (path top) /\
    (forall q, In q store <->
               In q quads /\
               exists q', In q' quads /\ subject q' = subject q /\
                          predicate q' = ACL.default /\ object q' = path top) /\
    ((forall q', In q' quads -> predicate q' = ACL.default -> object q' <> path top) ->
     store = []).
Proof.
  intros Hclimb Hfetch.
  pose proof (climb_outcome this (S n) (S fuel) id top recurse Hclimb) as Hwalk.
  rewrite getAclRecursive_outcome, Hfetch, filterData_outcome in Hwalk.
  cbn [flagAfter quadsOf data failure emitted] in Hwalk.
  exists (selectBySubject (addQuads [] quads) ACL.default (path top)).
  split; [exact Hwalk |]. split; [reflexivity |]. split.
  - intros q. apply In_select_imported.
  - intros Hnone.
    destruct (selectBySubject (addQuads [] quads) ACL.default (path top))
      as [| q rest] eqn:E; [reflexivity |].
    assert (Hq : In q (selectBySubject (addQuads [] quads) ACL.default (path top)))
      by (rewrite E; now left).
    apply In_select_imported in Hq. destruct Hq as [_ [q' (Hq' & _ & Hp & Ho)]].
    exfalso. exact (Hnone q' Hq' Hp Ho).
Qed.

(** C3, as the code has it: when no ACL document is found at the target nor
    at any ancestor up to the root, the walk does not stop at the root with
    an empty store. It asks the namespace utility for the parent of the
    root, and the error of the utility is the outcome of the resolution and
    of handle, for every agent and permission set; each level was probed
    once. *)
Theorem no_acl_up_to_root_throws (fuel n : nat) (id root : ResourceIdentifier)
    (e : Error) (agent : Credentials) (perms : PermissionSet) :
  climb this n id = Some root ->
  fetchAcl this root = inl NotFoundHttpError ->
  getParentContainer this root = inl e ->
  snd (getAclRecursive this (n + S fuel) id None) = Throw e /\
  snd (handle this (n + S fuel) (mkArgs agent id perms)) = Throw e /\
  countEvents isGetAclEvent (fst (handle this (n + S fuel) (mkArgs agent id perms)))
  = S n.
Proof.
  intros Hclimb Hfetch Hparent.
  assert (Hres : snd (getAclRecursive this (n + S fuel) id None) = Throw e).
  { rewrite (climb_outcome this n (S fuel) id root None Hclimb).
    now rewrite getAclRecursive_outcome, Hfetch, Hparent. }
  split; [exact Hres |].
  rewrite (handle_resolution_throws this (n + S fuel) (mkArgs agent id perms) e Hres).
  split; [reflexivity |]. cbn [fst identifier].
  destruct (climb_trace this n (S fuel) id root None Hclimb) as [before [-> Hn]].
  rewrite countEvents_app, Hn, stopping_level_trace; [lia |].
  intros parent Hp. congruence.
Qed.

(** X14: an error other than NotFoundHttpError thrown by getAcl or by
    getRepresentation, at the target or at an ancestor reached by the walk,
    is the outcome of the resolution and of handle, for every agent and
    permission set; handle adds no event to the trace of the resolution and
    each level was asked once. A NotFoundHttpError thrown by one of the two
    calls is replaced by the walk to the parent. *)
Theorem thrown_error_propagates (fuel n : nat) (id top : ResourceIdentifier)
    (e : Error) (agent : Credentials) (perms : PermissionSet) :
  climb this n id = Some top ->
  fetchAcl this top = inl e ->
  e <> NotFoundHttpError ->
  snd (getAclRecursive this (n + S fuel) id None) = Throw e /\
  handle this (n + S fuel) (mkArgs agent id perms) =
    (fst (getAclRecursive this (n + S fuel) id None), Throw e) /\
  countEvents isGetAclEvent (fst (handle this (n + S fuel) (mkArgs agent id perms)))
  = S n /\
  (forall fuel' id' recurse,
      fetchAcl this id' = inl NotFoundHttpError ->
      snd (getAclRecursive this (S fuel') id' recurse) =
      match getParentContainer this id' with
      | inl e' => Throw e'
      | inr parent => snd (getAclRecursive this fuel' parent (Some true))
      end).
Proof.
  intros Hclimb Hfetch Hne.
  assert (Hnf : isNotFound e = false) by (destruct e; try reflexivity; congruence).
  assert (Hres : snd (getAclRecursive this (n + S fuel) id None) = Throw e).
  { rewrite (climb_outcome this n (S fuel) id top None Hclimb).
    now rewrite getAclRecursive_outcome, Hfetch, Hnf. }
  pose proof (handle_resolution_throws this (n + S fuel) (mkArgs agent id perms) e Hres)
    as Hhandle.
  cbn [identifier] in Hhandle.
  split; [exact Hres |]. split; [exact Hhandle |]. split.
  - rewrite Hhandle. cbn [fst].
    destruct (climb_trace this n (S fuel) id top None Hclimb) as [before [-> Hn]].
    rewrite countEvents_app, Hn, stopping_level_trace; [lia |].
    intros parent _. congruence.
  - intros fuel' id' recurse Hf. now rewrite getAclRecursive_outcome, Hf.
Qed.

(** X15: an error that the quad stream of the ACL document emits while filterData
    imports it is the outcome of the resolution, whatever the error: the
    catch clause is not run, so nothing is logged and a NotFoundHttpError
    does not start the walk to the parent. *)
Lemma stream_error_escapes_catch (fuel : nat) (id : ResourceIdentifier)
    (recurse : option bool) (representation : Representation) (e : Error) :
  fetchAcl this id = inr representation ->
  failure (data representation) = Some e ->
  getAclRecursive this (S fuel) id recurse
  = (startLine id :: fst (readAcl this id), Throw e).
Proof.
  intros Hfetch Hfail.
  rewrite getAclRecursive_S, readAcl_outcome, Hfetch, filterData_outcome, Hfail.
  reflexivity.
Qed.

(** X16: a NotFoundHttpError thrown by getAcl or by getRepresentation never is the
    outcome of the resolution: when the resolution throws one, the namespace
    utility or a quad stream raised it. *)
Lemma not_found_origin :
  (forall id, getParentContainer this id <> inl NotFoundHttpError) ->
  (forall id representation,
      fetchAcl this id = inr representation ->
      failure (data representation) <> Some NotFoundHttpError) ->
  forall fuel id recurse,
    snd (getAclRecursive this fuel id recurse) <> Throw NotFoundHttpError.
Proof.
  intros Hutil Hstream. induction fuel as [| fuel IH]; intros id recurse.
  - discriminate.
  - rewrite getAclRecursive_outcome.
    destruct (fetchAcl this id) as [e | representation] eqn:Hfetch.
    + destruct e; cbn [isNotFound]; try discriminate.
      specialize (Hutil id).
      destruct (getParentContainer this id) as [e' | parent]; [congruence | apply IH].
    + rewrite filterData_outcome. specialize (Hstream id representation Hfetch).
      destruct (failure (data representation)); [congruence | discriminate].
Qed.

(** C10: the trace of handle starts with the trace of one resolution of the
    target, which holds no isAcl call; what follows holds no call of getAcl
    or getRepresentation, and starts with the isAcl call when the
    resolution returned. When the resolution throws, nothing follows and
    handle throws the same error, whatever isAcl would answer and whatever
    the permission set requests. *)
Theorem handle_resolves_first_and_once (fuel : nat) (agent : Credentials)
    (id : ResourceIdentifier) (perms : PermissionSet) :
  exists rest,
    fst (handle this fuel (mkArgs agent id perms)) =
      fst (getAclRecursive this fuel id None) ++ rest /\
    countEvents isIsAclEvent (fst (getAclRecursive this fuel id None)) = 0 /\
    countEvents isResolutionEvent rest = 0 /\
    (forall store, snd (getAclRecursive this fuel id None) = Return store ->
                   exists rest', rest = IsAcl id :: rest') /\
    (forall e, snd (getAclRecursive this fuel id None) = Throw e ->
               rest = [] /\ snd (handle this fuel (mkArgs agent id perms)) = Throw e).
Proof.
  pose proof (getAclRecursive_no_IsAcl this fuel id None) as Hnone.
  destruct (getAclRecursive this fuel id None) as [t [store | e |]] eqn:Hres.
  - rewrite (handle_resolved this fuel (mkArgs agent id perms) t store Hres).
    cbn [identifier credentials permissions fst snd].
    destruct (isAcl (aclManager this) id) as [e | [|]].
    + exists [IsAcl id]. cbn [fst]. split; [reflexivity |]. split; [assumption |].
      split; [reflexivity |]. split; [| discriminate].
      intros store' _. now exists [].
    + eexists. cbn [fst]. split; [reflexivity |]. split; [assumption |].
      split; [| split].
      * change (IsAcl id :: ?l) with ([IsAcl id] ++ l).
        rewrite countEvents_app, checkPermission_trace. reflexivity.
      * intros store' _. eexists. reflexivity.
      * discriminate.
    + eexists. cbn [fst]. split; [reflexivity |]. split; [assumption |].
      split; [| split].
      * change (IsAcl id :: ?l) with ([IsAcl id] ++ l).
        rewrite countEvents_app, forEach_trace; [reflexivity |].
        intros key. apply checkPermission_trace.
      * intros store' _. eexists. reflexivity.
      * discriminate.
  - exists []. unfold handle. cbn [identifier]. rewrite Hres. cbn [bind fst snd].
    rewrite app_nil_r. split; [reflexivity |]. split; [assumption |].
    split; [reflexivity |]. split; [discriminate |].
    intros e' He'. injection He' as <-. split; reflexivity.
  - exists []. unfold handle. cbn [identifier]. rewrite Hres. cbn [bind fst snd].
    rewrite app_nil_r. split; [reflexivity |]. split; [assumption |].
    split; [reflexivity |]. split; discriminate.
Qed.

End ResolutionProperties.

(* ------------------------------------------------------------------ *)
(** ** The properties on the example pods *)

Lemma handle_acl_target_checks_control_witness :
  isAcl (aclManager (pod inheritedPod)) (mkId "/a/.acl") = inr true /\
  authorize inheritedPod (asAgent alice) "/a/.acl" [(write, true)] =
  authorize inheritedPod (asAgent alice) "/a/.acl" [(read, true)].
Proof.
  split.
  - reflexivity.
  - exact (proj1 (proj2 (handle_acl_target_checks_control
                           (pod inheritedPod) 10 (asAgent alice) (mkId "/a/.acl")
                           [(read, true)] eq_refl))
                 [(write, true)]).
Defined.

Lemma handle_resource_target_checks_requested_witness :
  getAclRecursive (pod inheritedPod) 10 (mkId "/a/b/c") None =
    (fst (getAclRecursive (pod inheritedPod) 10 (mkId "/a/b/c") None),
     Return publicRead) /\
  isAcl (aclManager (pod inheritedPod)) (mkId "/a/b/c") = inr false /\
  authorize inheritedPod anonymous "/a/b/c" [(read, true); (append, false); (write, true)] =
    (fst (getAclRecursive (pod inheritedPod) 10 (mkId "/a/b/c") None)
       ++ [IsAcl (mkId "/a/b/c");
           Log Warn "Unauthenticated agent has no write permissions" None],
     Throw UnauthorizedHttpError).
Proof.
  split; [reflexivity |]. split; [reflexivity |].
  exact (proj2 (proj2 (proj2
           (handle_resource_target_checks_requested
              (pod inheritedPod) 10 anonymous (mkId "/a/b/c")
              [(read, true); (append, false); (write, true)]
              (fst (getAclRecursive (pod inheritedPod) 10 (mkId "/a/b/c") None))
              publicRead eq_refl eq_refl)))
         [read] write [] eq_refl
         (fun k H => match H with
                     | or_introl E => match E in _ = k' return
                                              isModeGranted publicRead anonymous k' = true
                                        with eq_refl => eq_refl end
                     | or_intror F => match F with end
                     end)
         eq_refl).
Defined.

Lemma filterData_order_insensitive_witness :
  Permutation [triple "#public" ACL.mode ACL.Read; triple "#public" ACL.default "/a/"]
              [triple "#public" ACL.default "/a/"; triple "#public" ACL.mode ACL.Read] /\
  exists store1 store2,
    filterData (mkRepresentation
                  (mkStream [triple "#public" ACL.mode ACL.Read;
                             triple "#public" ACL.default "/a/"] None))
               ACL.default "/a/" = ([], Return store1) /\
    filterData (mkRepresentation
                  (mkStream [triple "#public" ACL.default "/a/";
                             triple "#public" ACL.mode ACL.Read] None))
               ACL.default "/a/" = ([], Return store2) /\
    (forall q, In q store1 <-> In q store2) /\
    Permutation store1 store2 /\
    (forall q, In q store1 <->
               In q [triple "#public" ACL.mode ACL.Read;
                     triple "#public" ACL.default "/a/"] /\
               exists q', In q' [triple "#public" ACL.mode ACL.Read;
                                 triple "#public" ACL.default "/a/"] /\
                          subject q' = subject q /\
                          predicate q' = ACL.default /\ object q' = "/a/").
Proof.
  split.
  - apply perm_swap.
  - apply filterData_order_insensitive. apply perm_swap.
Defined.

Lemma probe_scope_by_depth_witness :
  climb (pod inheritedPod) 2 (mkId "/a/b/c") = Some (mkId "/a/") /\
  fetchAcl (pod inheritedPod) (mkId "/a/") = inr (quadsOf aclOfA) /\
  snd (getAclRecursive (pod inheritedPod) (2 + 1) (mkId "/a/b/c") None) =
  Return (selectBySubject (addQuads [] aclOfA) ACL.default "/a/").
Proof.
  split; [reflexivity |]. split; [reflexivity |].
  exact (proj1 (proj2 (proj2 (probe_scope_by_depth
                                (pod inheritedPod) 0 2 (mkId "/a/b/c") (mkId "/a/") aclOfA
                                eq_refl eq_refl)))
               (Nat.lt_0_succ 1)).
Defined.

Lemma ancestor_probe_filters_by_own_path_witness :
  climb (pod inheritedPod) 1 (mkId "/a/b/") = Some (mkId "/a/") /\
  fetchAcl (pod inheritedPod) (mkId "/a/") = inr (quadsOf aclOfA) /\
  exists store,
    snd (getAclRecursive (pod inheritedPod) (1 + 1) (mkId "/a/b/") None) = Return store /\
    store = selectBySubject (addQuads [] aclOfA) ACL.default "/a/" /\
    (forall q, In q store <->
               In q aclOfA /\
               exists q', In q' aclOfA /\ subject q' = subject q /\
                          predicate q' = ACL.default /\ object q' = "/a/") /\
    ((forall q', In q' aclOfA -> predicate q' = ACL.default -> object q' <> "/a/") ->
     store = []).
Proof.
  split; [reflexivity |]. split; [reflexivity |].
  exact (ancestor_probe_filters_by_own_path
           (pod inheritedPod) 0 0 (mkId "/a/b/") (mkId "/a/") aclOfA None
           eq_refl eq_refl).
Defined.

Lemma no_acl_up_to_root_throws_witness :
  climb (pod emptyPod) 3 (mkId "/a/b/c") = Some (mkId "/") /\
  fetchAcl (pod emptyPod) (mkId "/") = inl NotFoundHttpError /\
  getParentContainer (pod emptyPod) (mkId "/")
  = inl (OtherError "root container has no parent") /\
  snd (getAclRecursive (pod emptyPod) (3 + 1) (mkId "/a/b/c") None)
  = Throw (OtherError "root container has no parent") /\
  snd (handle (pod emptyPod) (3 + 1) (mkArgs anonymous (mkId "/a/b/c") [(read, true)]))
  = Throw (OtherError "root container has no parent") /\
  countEvents isGetAclEvent
    (fst (handle (pod emptyPod) (3 + 1) (mkArgs anonymous (mkId "/a/b/c") [(read, true)])))
  = 4.
Proof.
  split; [reflexivity |]. split; [reflexivity |]. split; [reflexivity |].
  exact (no_acl_up_to_root_throws
           (pod emptyPod) 0 3 (mkId "/a/b/c") (mkId "/")
           (OtherError "root container has no parent") anonymous [(read, true)]
           eq_refl eq_refl eq_refl).
Defined.

(** C3, as the claim states it, fails on a pod without any ACL document: the
    three levels above /a/b/c and the root report not found, yet no amount of
    fuel makes the resolution return the empty store, and the request of an
    anonymous agent for read ends with the error of the namespace utility,
    which is neither UnauthorizedHttpError nor ForbiddenHttpError. *)
Lemma resolution_at_root_counterexample :
  climb (pod emptyPod) 3 (mkId "/a/b/c") = Some (mkId "/") /\
  fetchAcl (pod emptyPod) (mkId "/") = inl NotFoundHttpError /\
  ~ (exists fuel,
        snd (getAclRecursive (pod emptyPod) fuel (mkId "/a/b/c") None) = Return []) /\
  snd (authorize emptyPod anonymous "/a/b/c" [(read, true)])
  = Throw (OtherError "root container has no parent") /\
  snd (authorize emptyPod anonymous "/a/b/c" [(read, true)])
  <> Throw UnauthorizedHttpError.
Proof.
  split; [reflexivity |]. split; [reflexivity |]. split; [| split].
  - intros [fuel H].
    destruct fuel as [| [| [| [| fuel]]]]; vm_compute in H; discriminate.
  - reflexivity.
  - vm_compute. discriminate.
Qed.

Lemma thrown_error_propagates_example :
  climb (pod brokenPod) 1 (mkId "/a/b/c") = Some (mkId "/a/b/") /\
  fetchAcl (pod brokenPod) (mkId "/a/b/") = inl (OtherError "disk failure") /\
  handle (pod brokenPod) (1 + 1) (mkArgs (asAgent bob) (mkId "/a/b/c") [(read, true)]) =
  (fst (getAclRecursive (pod brokenPod) (1 + 1) (mkId "/a/b/c") None),
   Throw (OtherError "disk failure")).
Proof.
  split; [reflexivity |]. split; [reflexivity |].
  apply (thrown_error_propagates (pod brokenPod) 0 1 (mkId "/a/b/c") (mkId "/a/b/")
           (OtherError "disk failure") (asAgent bob) [(read, true)]);
    [reflexivity | reflexivity | discriminate].
Defined.

(** C4 on a pod where the claim fails: the ACL document of /a/b/c is reported
    not found by its quad stream, during the resolution. handle throws that
    NotFoundHttpError to its caller, after the two calls for /a/b/c and
    without a look at /a/, whose ACL document grants read to everyone: were
    the not-found absorbed, as it is when getRepresentation throws it, the
    request would be allowed. *)
Theorem stream_not_found_reaches_caller :
  authorize vanishingPod anonymous "/a/b/c" [(read, true)] =
    ([Log Debug "Trying to read the direct ACL document of /a/b/c" None;
      GetAcl (mkId "/a/b/c");
      Log Debug "Trying to read the ACL document /a/b/c.acl" None;
      GetRepresentation (mkId "/a/b/c.acl") INTERNAL_QUADS;
      Log Info "Reading ACL statements from /a/b/c.acl" None],
     Throw NotFoundHttpError) /\
  snd (authorize inheritedPod anonymous "/a/b/c" [(read, true)]) = Return tt.
Proof. split; reflexivity. Qed.

(* ------------------------------------------------------------------ *)
(** ** Scenarios *)

Example capitalize_control : capitalize "control" = inr "Control".
Proof. reflexivity. Qed.

Example capitalize_mixed_case : capitalize "wRITE" = inr "Write".
Proof. reflexivity. Qed.

Example capitalize_empty : capitalize EmptyString = inl TypeError.
Proof. reflexivity. Qed.

Example parent_of_resource : parentContainerOf (mkId "/a/b/c") = inr (mkId "/a/b/").
Proof. reflexivity. Qed.

Example parent_of_container : parentContainerOf (mkId "/a/b/") = inr (mkId "/a/").
Proof. reflexivity. Qed.

Example parent_of_root :
  parentContainerOf (mkId "/") = inl (OtherError "root container has no parent").
Proof. reflexivity. Qed.

(** The ACL document of /a/ grants read to everyone by default scope: an
    anonymous agent may read /a/b/c, and is asked to authenticate for write. *)
Example inherited_read_is_public :
  snd (authorize inheritedPod anonymous "/a/b/c" [(read, true)]) = Return tt.
Proof. reflexivity. Qed.

Example inherited_write_is_denied :
  snd (authorize inheritedPod anonymous "/a/b/c" [(write, true)])
  = Throw UnauthorizedHttpError.
Proof. reflexivity. Qed.

(** The ACL document of /a/b/c grants control to alice alone. *)
Example direct_control_for_alice :
  snd (authorize directPod (asAgent alice) "/a/b/c" [(control, true)]) = Return tt.
Proof. reflexivity. Qed.

Example direct_control_not_for_bob :
  snd (authorize directPod (asAgent bob) "/a/b/c" [(control, true)])
  = Throw ForbiddenHttpError.
Proof. reflexivity. Qed.

(** The default statements of a directly found ACL document are not used:
    bob is authenticated, and still may not read /a/b/c. *)
Example direct_probe_uses_accessTo :
  snd (getAclRecursive (pod directPod) 10 (mkId "/a/b/c") None) = Return ownerControl /\
  snd (authorize directPod (asAgent bob) "/a/b/c" [(read, true)])
  = Throw ForbiddenHttpError.
Proof. split; reflexivity. Qed.

(** A request for read on the ACL document of /a/ is checked as control. *)
Example acl_document_needs_control :
  snd (authorize inheritedPod (asAgent alice) "/a/.acl" [(read, true)]) = Return tt /\
  snd (authorize inheritedPod (asAgent bob) "/a/.acl" [(read, true)])
  = Throw ForbiddenHttpError.
Proof. split; reflexivity. Qed.

(** A failure of the storage is the outcome of the check, even when nothing
    is requested. *)
Example storage_failure_is_reported :
  snd (authorize brokenPod anonymous "/a/b/c" []) = Throw (OtherError "disk failure").
Proof. reflexivity. Qed.

(** With a namespace utility that gives the root as its own parent, the walk
    on a pod without ACL documents never returns. *)
Lemma self_parent_root_never_returns :
  fetchAcl (mkAuthorizer suffixAclManager emptyPod (fun id => inr id)) (mkId "/")
  = inl NotFoundHttpError /\
  getParentContainer (mkAuthorizer suffixAclManager emptyPod (fun id => inr id)) (mkId "/")
  = inr (mkId "/") /\
  (forall fuel recurse,
      snd (getAclRecursive
             (mkAuthorizer suffixAclManager emptyPod (fun id => inr id))
             fuel (mkId "/") recurse) = OutOfFuel).
Proof.
  split; [reflexivity |]. split; [reflexivity |].
  exact (getAclRecursive_loops_at_root
           (mkAuthorizer suffixAclManager emptyPod (fun id => inr id)) (mkId "/")
           eq_refl eq_refl).
Defined.

(* ------------------------------------------------------------------ *)
(** ** Further properties of the permission check *)

Lemma checkPermission_unfold (agent : Credentials) (store : Store) (mode : string) :
  checkPermission agent store mode =
  match capitalize mode with
  | inl e => ([], Throw e)
  | inr capitalized =>
      if grantsAccess store agent (ACL_get capitalized) then ([], Return tt)
      else ([denialLine agent mode], Throw (denialError agent))
  end.
Proof.
  unfold checkPermission, grantsAccess, denialLine, denialError.
  destruct (capitalize mode) as [e | capitalized]; [reflexivity |].
  cbn [lift ret bind].
  destruct (existsb _ _); cbn [negb]; [reflexivity |].
  destruct (webID agent); reflexivity.
Qed.

Lemma toUpperCaseAscii_of_lower (c : ascii) :
  toUpperCaseAscii (toLowerCaseAscii c) = toUpperCaseAscii c.
Proof. destruct c as [[] [] [] [] [] [] [] []]; reflexivity. Qed.

Lemma holds_mono (store store' : Store) (s p o : Term) :
  (forall q, In q store -> In q store') -> holds store s p o -> holds store' s p o.
Proof. intros Hsub [g Hg]. exists g. now apply Hsub. Qed.

Lemma hasAccess_mono (agent : Credentials) (auth : Term) (store store' : Store) :
  (forall q, In q store -> In q store') ->
  hasAccess agent auth store = true -> hasAccess agent auth store' = true.
Proof.
  intros Hsub H. apply hasAccess_iff in H. apply hasAccess_iff.
  destruct H as [H | [[Hw H] | [w [Hw H]]]].
  - left. eapply holds_mono; eassumption.
  - right. left. split; [assumption | eapply holds_mono; eassumption].
  - right. right. exists w. split; [assumption | eapply holds_mono; eassumption].
Qed.

Lemma grantsAccess_iff (store : Store) (agent : Credentials) (modeString : option Term) :
  grantsAccess store agent modeString = true <->
  exists q, In q store /\ predicate q = ACL.mode /\
            matches modeString (object q) = true /\
            hasAccess agent (subject q) store = true.
Proof.
  unfold grantsAccess. rewrite existsb_exists. split.
  - intros [auth [Hin Hacc]]. apply in_map_iff in Hin. destruct Hin as [q [<- Hq]].
    apply In_getQuads in Hq. destruct Hq as (Hin & _ & Hp & Ho & _).
    apply matches_Some in Hp. exists q. auto.
  - intros [q (Hin & Hp & Ho & Hacc)]. exists (subject q). split; [| assumption].
    apply in_map_iff. exists q. split; [reflexivity |].
    apply In_getQuads. split; [assumption |]. split; [reflexivity |].
    split; [apply matches_Some; exact Hp |]. split; [assumption | reflexivity].
Qed.

Lemma grantsAccess_mono (store store' : Store) (agent : Credentials)
    (modeString : option Term) :
  (forall q, In q store -> In q store') ->
  grantsAccess store agent modeString = true ->
  grantsAccess store' agent modeString = true.
Proof.
  intros Hsub H. apply grantsAccess_iff in H. apply grantsAccess_iff.
  destruct H as [q (Hin & Hp & Ho & Hacc)]. exists q.
  split; [now apply Hsub |]. split; [assumption |]. split; [assumption |].
  eapply hasAccess_mono; eassumption.
Qed.

(** X1: checkPermission does not look at the letter case of the mode name.
    Two ASCII mode names that are equal once put in lower case are
    capitalized to the same key of ACL, and the check has the same outcome
    for both; only the warning, which quotes the name as given, can differ. *)
Theorem checkPermission_ignores_letter_case (agent : Credentials) (store : Store)
    (mode mode' : string) :
  asciiOnly mode = true ->
  asciiOnly mode' = true ->
  toLowerCase mode = toLowerCase mode' ->
  capitalize mode = capitalize mode' /\
  snd (checkPermission agent store mode) = snd (checkPermission agent store mode').
Proof.
  intros _ _ Hlower.
  assert (Hcap : capitalize mode = capitalize mode').
  { destruct mode as [| c rest], mode' as [| c' rest']; simpl in Hlower;
      try discriminate; [reflexivity |].
    injection Hlower as Hc Hrest. simpl.
    rewrite <- (toUpperCaseAscii_of_lower c), Hc, toUpperCaseAscii_of_lower, Hrest.
    reflexivity. }
  split; [exact Hcap |].
  rewrite !checkPermission_unfold, Hcap.
  destruct (capitalize mode'); [reflexivity |].
  destruct (grantsAccess store agent _); reflexivity.
Qed.

Lemma checkPermission_ignores_letter_case_witness :
  asciiOnly "READ" = true /\ asciiOnly "read" = true /\
  toLowerCase "READ" = toLowerCase "read" /\
  capitalize "READ" = capitalize "read" /\
  snd (checkPermission anonymous publicRead "READ")
  = snd (checkPermission anonymous publicRead "read").
Proof.
  split; [reflexivity |]. split; [reflexivity |]. split; [reflexivity |].
  exact (checkPermission_ignores_letter_case anonymous publicRead "READ" "read"
           eq_refl eq_refl eq_refl).
Defined.


(** X3: the check knows no statement that takes access away. A mode that
    checkPermission lets pass on a store still passes on every store that
    holds the same quads and more. *)
Theorem grant_survives_added_statements (agent : Credentials) (store store' : Store)
    (mode : string) :
  (forall q, In q store -> In q store') ->
  snd (checkPermission agent store mode) = Return tt ->
  snd (checkPermission agent store' mode) = Return tt.
Proof.
  intros Hsub. rewrite !checkPermission_unfold.
  destruct (capitalize mode) as [e | capitalized]; [trivial |].
  destruct (grantsAccess store agent (ACL_get capitalized)) eqn:E; [| discriminate].
  intros _. now rewrite (grantsAccess_mono store store' agent _ Hsub E).
Qed.

Lemma grant_survives_added_statements_witness :
  (forall q, In q publicRead -> In q aclOfA) /\
  snd (checkPermission anonymous publicRead "read") = Return tt /\
  snd (checkPermission anonymous aclOfA "read") = Return tt.
Proof.
  assert (Hsub : forall q, In q publicRead -> In q aclOfA).
  { intros q Hq. simpl in Hq. simpl. tauto. }
  split; [exact Hsub |]. split; [reflexivity |].
  exact (grant_survives_added_statements anonymous publicRead aclOfA "read"
           Hsub eq_refl).
Defined.

(** X4: what an agent without webID may do, every agent may do: a mode that
    checkPermission lets pass for credentials without webID passes for all
    credentials. *)
Theorem anonymous_grant_holds_for_everyone (store : Store) (mode : string)
    (agent : Credentials) :
  snd (checkPermission (mkCredentials None) store mode) = Return tt ->
  snd (checkPermission agent store mode) = Return tt.
Proof.
  rewrite !checkPermission_unfold.
  destruct (capitalize mode) as [e | capitalized]; [trivial |].
  destruct (grantsAccess store (mkCredentials None) (ACL_get capitalized)) eqn:E;
    [| discriminate].
  intros _. apply grantsAccess_iff in E. destruct E as [q (Hin & Hp & Ho & Hacc)].
  assert (Hall : grantsAccess store agent (ACL_get capitalized) = true).
  { apply grantsAccess_iff. exists q. repeat (split; [assumption |]).
    apply hasAccess_iff in Hacc. apply hasAccess_iff.
    destruct Hacc as [H | [[Hw _] | [w [Hw _]]]];
      [now left | now elim Hw | discriminate]. }
  now rewrite Hall.
Qed.

Lemma anonymous_grant_holds_for_everyone_witness :
  snd (checkPermission (mkCredentials None) publicRead "read") = Return tt /\
  snd (checkPermission (asAgent bob) publicRead "read") = Return tt.
Proof.
  split; [reflexivity |].
  exact (anonymous_grant_holds_for_everyone publicRead "read" (asAgent bob) eq_refl).
Defined.

(** X5: checkPermission reads the store as a set. On two stores with the
    same quads, in whatever order, it writes the same log lines and ends the
    same way. *)
Theorem checkPermission_reads_store_as_set (agent : Credentials) (store store' : Store)
    (mode : string) :
  (forall q, In q store <-> In q store') ->
  checkPermission agent store mode = checkPermission agent store' mode.
Proof.
  intros Hsame. rewrite !checkPermission_unfold.
  destruct (capitalize mode) as [e | capitalized]; [reflexivity |].
  assert (Heq : grantsAccess store agent (ACL_get capitalized)
                = grantsAccess store' agent (ACL_get capitalized)).
  { destruct (grantsAccess store agent (ACL_get capitalized)) eqn:E,
             (grantsAccess store' agent (ACL_get capitalized)) eqn:E';
      try reflexivity.
    - rewrite (grantsAccess_mono store store' agent _ (fun q => proj1 (Hsame q)) E) in E'.
      discriminate.
    - rewrite (grantsAccess_mono store' store agent _ (fun q => proj2 (Hsame q)) E') in E.
      discriminate. }
  now rewrite Heq.
Qed.

Lemma checkPermission_reads_store_as_set_witness :
  (forall q, In q publicRead <-> In q (rev publicRead)) /\
  checkPermission (asAgent bob) publicRead "write"
  = checkPermission (asAgent bob) (rev publicRead) "write".
Proof.
  split.
  - intros q. apply in_rev.
  - exact (checkPermission_reads_store_as_set (asAgent bob) publicRead (rev publicRead)
             "write" (fun q => in_rev publicRead q)).
Defined.

(* ------------------------------------------------------------------ *)
(** ** Further properties of filterData *)

Lemma filterData_quadsOf (quads : list Quad) (p o : string) :
  filterData (quadsOf quads) p o
  = ([], Return (selectBySubject (addQuads [] quads) p o)).
Proof. reflexivity. Qed.

Lemma holds_select_imported (quads : list Quad) (p o : string) (s p' o' : Term) :
  holds (selectBySubject (addQuads [] quads) p o) s p' o' <->
  holds quads s p' o' /\ holds quads s p o.
Proof.
  unfold holds. split.
  - intros [g Hg]. apply In_select_imported in Hg.
    destruct Hg as [Hin [q' (Hq' & Hs & Hp & Ho)]]. split; [now exists g |].
    exists (graph q'). destruct q'; simpl in *; subst. assumption.
  - intros [[g Hg] [g' Hg']]. exists g. apply In_select_imported.
    split; [assumption |]. exists (mkQuad s p o g'). simpl. auto.
Qed.

(** X6: filtering twice is filtering once. When the store that filterData
    returned is streamed to filterData again, with the same predicate and
    object, the second store holds the same quads as the first. *)
Theorem filterData_twice (quads : list Quad) (p o : string) :
  exists store store',
    filterData (quadsOf quads) p o = ([], Return store) /\
    filterData (quadsOf store) p o = ([], Return store') /\
    (forall q, In q store' <-> In q store) /\
    Permutation store' store.
Proof.
  exists (selectBySubject (addQuads [] quads) p o).
  exists (selectBySubject (addQuads [] (selectBySubject (addQuads [] quads) p o)) p o).
  split; [reflexivity |]. split; [reflexivity |].
  assert (Hsame : forall q,
    In q (selectBySubject (addQuads [] (selectBySubject (addQuads [] quads) p o)) p o)
    <-> In q (selectBySubject (addQuads [] quads) p o)).
  { intros q. rewrite (In_select_imported (selectBySubject _ _ _)). split.
    - tauto.
    - intros Hq. split; [assumption |].
      pose proof Hq as Hq0. apply In_select_imported in Hq0.
      destruct Hq0 as [_ [q' (Hq' & Hs & Hp & Ho)]]. exists q'.
      split; [| auto]. apply In_select_imported. split; [assumption |].
      exists q'. auto. }
  split; [exact Hsame |].
  apply NoDup_Permutation; [apply NoDup_selectBySubject .. | exact Hsame].
Qed.

(** X7: filterData returns the empty store exactly when no quad of the
    stream has the given predicate together with the given object; so it does
    on the empty stream. *)
Theorem filterData_empty_iff (quads : list Quad) (p o : string) :
  filterData (quadsOf quads) p o = ([], Return [])
  <-> (forall q, In q quads -> predicate q = p -> object q <> o).
Proof.
  rewrite filterData_quadsOf. split.
  - intros H q Hq Hp Ho.
    assert (Hin : In q (selectBySubject (addQuads [] quads) p o)).
    { apply In_select_imported. split; [assumption |]. exists q. auto. }
    injection H as H. rewrite H in Hin. destruct Hin.
  - intros Hnone.
    destruct (selectBySubject (addQuads [] quads) p o) as [| q rest] eqn:E;
      [reflexivity |].
    assert (Hq : In q (selectBySubject (addQuads [] quads) p o))
      by (rewrite E; now left).
    apply In_select_imported in Hq. destruct Hq as [_ [q' (Hq' & _ & Hp & Ho)]].
    exfalso. exact (Hnone q' Hq' Hp Ho).
Qed.

(** X8: filterData and checkPermission together. A mode passes the check on
    the store filtered from an ACL document by a scope predicate and a target
    path exactly when one subject of the document has the scope statement
    for that path, a mode statement for the mode, and a statement that gives
    the agent access: agentClass foaf:Agent, agentClass
    foaf:AuthenticatedAgent for credentials with a webID, or agent with the
    webID of the credentials. *)
Theorem filtered_check_rule (quads : list Quad) (scope target : string)
    (agent : Credentials) (m : Mode) :
  snd (store <- filterData (quadsOf quads) scope target ;;
       checkPermission agent store (keyName m)) = Return tt
  <->
  exists auth,
    holds quads auth scope target /\
    holds quads auth ACL.mode (modeIRI m) /\
    (holds quads auth ACL.agentClass FOAF.Agent \/
     (webID agent <> None /\ holds quads auth ACL.agentClass FOAF.AuthenticatedAgent) \/
     (exists w, webID agent = Some w /\ holds quads auth ACL.agent w)).
Proof.
  rewrite filterData_quadsOf, bind_Return. cbn [snd].
  rewrite checkPermission_mode.
  assert (H : isModeGranted (selectBySubject (addQuads [] quads) scope target) agent m
              = true <->
              snd (if isModeGranted (selectBySubject (addQuads [] quads) scope target)
                                    agent m
                   then (@nil Event, Return tt)
                   else ([denialLine agent (keyName m)], Throw (denialError agent)))
              = Return tt).
  { destruct (isModeGranted _ agent m); simpl; split; congruence. }
  rewrite <- H, isModeGranted_iff. clear H. split.
  - intros [auth [Hm Ha]]. exists auth.
    apply holds_select_imported in Hm. destruct Hm as [Hm Hscope].
    split; [assumption |]. split; [assumption |].
    apply hasAccess_iff in Ha.
    destruct Ha as [Ha | [[Hw Ha] | [w [Hw Ha]]]];
      apply holds_select_imported in Ha; destruct Ha as [Ha _].
    + now left.
    + right. left. auto.
    + right. right. exists w. auto.
  - intros [auth (Hscope & Hm & Ha)]. exists auth.
    split; [apply holds_select_imported; auto |].
    apply hasAccess_iff.
    destruct Ha as [Ha | [[Hw Ha] | [w [Hw Ha]]]].
    + left. apply holds_select_imported. auto.
    + right. left. split; [assumption | apply holds_select_imported; auto].
    + right. right. exists w. split; [assumption | apply holds_select_imported; auto].
Qed.

(* ------------------------------------------------------------------ *)
(** ** Further properties of handle *)

Lemma Mode_eqb_eq (a b : Mode) : Mode_eqb a b = true <-> a = b.
Proof. destruct a, b; simpl; split; congruence. Qed.

Lemma getProperty_In (perms : PermissionSet) (key : Mode) :
  NoDup (keys perms) ->
  (getProperty perms key = true <-> In (key, true) perms).
Proof.
  induction perms as [| [k v] rest IH]; intros Hnodup; simpl.
  - split; [discriminate | tauto].
  - unfold keys in Hnodup. simpl in Hnodup. inversion Hnodup as [| ? ? Hnotin Hrest]; subst.
    destruct (Mode_eqb k key) eqn:E.
    + apply Mode_eqb_eq in E. subst k. split.
      * intros ->. now left.
      * intros [H | H]; [congruence |].
        exfalso. apply Hnotin. apply in_map_iff. now exists (key, true).
    + rewrite (IH Hrest). split; [tauto |].
      intros [H | H]; [| assumption].
      injection H as -> ->. rewrite (proj2 (Mode_eqb_eq key key) eq_refl) in E.
      discriminate.
Qed.

Lemma requested_In (perms : PermissionSet) (key : Mode) :
  NoDup (keys perms) ->
  (In key (requested perms) <-> In (key, true) perms).
Proof.
  intros Hnodup. unfold requested. rewrite filter_In, (getProperty_In perms key Hnodup).
  split; [tauto |]. intros H. split; [| assumption].
  unfold keys. apply in_map_iff. now exists (key, true).
Qed.

Lemma forEach_checkPermission_outcome (agent : Credentials) (store : Store)
    (modes : list Mode) :
  snd (forEach modes (fun key => checkPermission agent store (keyName key))) =
  if forallb (isModeGranted store agent) modes then Return tt
  else Throw (denialError agent).
Proof.
  induction modes as [| m modes IH]; [reflexivity |].
  cbn [forEach forallb]. rewrite checkPermission_mode.
  destruct (isModeGranted store agent m); [| reflexivity].
  change (@nil Event, Return tt) with (ret tt). rewrite bind_ret_l. exact IH.
Qed.

(** The loop over the modes is silent when it returns, and writes the one
    warning of a denied mode when it throws. *)
Lemma forEach_checkPermission_shape (agent : Credentials) (store : Store)
    (modes : list Mode) :
  forEach modes (fun key => checkPermission agent store (keyName key))
  = ([], Return tt) \/
  exists key,
    In key modes /\
    forEach modes (fun key => checkPermission agent store (keyName key))
    = ([denialLine agent (keyName key)], Throw (denialError agent)).
Proof.
  induction modes as [| m modes IH]; [now left |].
  cbn [forEach]. rewrite checkPermission_mode.
  destruct (isModeGranted store agent m).
  - change (@nil Event, Return tt) with (ret tt). rewrite bind_ret_l.
    destruct IH as [IH | [key [Hin IH]]]; [now left |].
    right. exists key. split; [now right | exact IH].
  - right. exists m. split; [now left | reflexivity].
Qed.

Lemma forallb_same_members {A} (f : A -> bool) (l l' : list A) :
  (forall x, In x l <-> In x l') -> forallb f l = forallb f l'.
Proof.
  intros Hsame.
  destruct (forallb f l) eqn:E, (forallb f l') eqn:E'; try reflexivity.
  - rewrite forallb_forall in E.
    assert (H : forallb f l' = true).
    { apply forallb_forall. intros x Hx. apply E, Hsame, Hx. }
    congruence.
  - rewrite forallb_forall in E'.
    assert (H : forallb f l = true).
    { apply forallb_forall. intros x Hx. apply E', Hsame, Hx. }
    congruence.
Qed.

Lemma isWarn_denialLine (agent : Credentials) (mode : string) :
  isWarnEvent (denialLine agent mode) = true.
Proof. unfold denialLine. destruct (webID agent); reflexivity. Qed.

Section HandleFurther.

Variable this : WebAclAuthorizer.

Lemma readAcl_no_warning (id : ResourceIdentifier) :
  countEvents isWarnEvent (fst (readAcl this id)) = 0.
Proof.
  unfold readAcl.
  destruct (getAcl (aclManager this) id) as [e | acl]; simpl; [reflexivity |].
  destruct (getRepresentation (resourceStore this) acl); reflexivity.
Qed.

Lemma getAclRecursive_no_warning (fuel : nat) (id : ResourceIdentifier)
    (recurse : option bool) :
  countEvents isWarnEvent (fst (getAclRecursive this fuel id recurse)) = 0.
Proof.
  revert id recurse. induction fuel as [| fuel IH]; intros id recurse.
  - reflexivity.
  - rewrite getAclRecursive_S.
    pose proof (readAcl_no_warning id) as H0.
    destruct (snd (readAcl this id)) as [representation | e |]; cbn [fst].
    + change (startLine id :: ?t) with ([startLine id] ++ t).
      rewrite countEvents_app, H0. reflexivity.
    + destruct (isNotFound e).
      * destruct (getParentContainer this id) as [e' | parent]; cbn [fst].
        -- change (startLine id :: ?t) with ([startLine id] ++ t).
           rewrite !countEvents_app, H0. reflexivity.
        -- change (startLine id :: ?t) with ([startLine id] ++ t).
           rewrite !countEvents_app, H0, IH. reflexivity.
      * cbn [fst]. change (startLine id :: ?t) with ([startLine id] ++ t).
        rewrite !countEvents_app, H0. reflexivity.
    + change (startLine id :: ?t) with ([startLine id] ++ t).
      rewrite countEvents_app, H0. reflexivity.
Qed.

(** X9: the outcome of handle does not depend on the order of the keys of
    the permission set: for two permission sets with the same properties in
    different orders, handle returns for both or throws the same error for
    both. (The warning names the first denied mode, so the log may differ.) *)
Theorem handle_outcome_ignores_key_order (fuel : nat) (agent : Credentials)
    (id : ResourceIdentifier) (perms perms' : PermissionSet) :
  NoDup (keys perms) ->
  Permutation perms perms' ->
  snd (handle this fuel (mkArgs agent id perms))
  = snd (handle this fuel (mkArgs agent id perms')).
Proof.
  intros Hnodup Hperm.
  assert (Hnodup' : NoDup (keys perms')).
  { unfold keys. eapply Permutation_NoDup; [| exact Hnodup].
    apply Permutation_map, Hperm. }
  destruct (getAclRecursive this fuel id None) as [t [store | e |]] eqn:Hres.
  - rewrite (handle_resolved this fuel (mkArgs agent id perms) t store Hres).
    rewrite (handle_resolved this fuel (mkArgs agent id perms') t store Hres).
    cbn [identifier credentials permissions].
    destruct (isAcl (aclManager this) id) as [e | [|]]; [reflexivity .. |].
    cbn [snd]. rewrite !forEach_checkPermission_outcome.
    rewrite (forallb_same_members (isModeGranted store agent)
                                  (requested perms) (requested perms'));
      [reflexivity |].
    intros key. rewrite (requested_In perms key Hnodup),
      (requested_In perms' key Hnodup').
    split; intros H.
    + eapply Permutation_in; eassumption.
    + eapply Permutation_in; [apply Permutation_sym |]; eassumption.
  - unfold handle. cbn [identifier]. rewrite Hres. reflexivity.
  - unfold handle. cbn [identifier]. rewrite Hres. reflexivity.
Qed.

(** X10: an error of isAcl ends the check. When the resolution returned and
    isAcl then throws, NotFoundHttpError included, handle throws that error
    right after the isAcl call: no mode is checked, also when the permission
    set requests some. *)
Theorem isAcl_error_ends_check (fuel : nat) (input : AuthorizerArgs)
    (t : list Event) (store : Store) (e : Error) :
  getAclRecursive this fuel (identifier input) None = (t, Return store) ->
  isAcl (aclManager this) (identifier input) = inl e ->
  handle this fuel input = (t ++ [IsAcl (identifier input)], Throw e).
Proof.
  intros Hres Hacl. rewrite (handle_resolved this fuel input t store Hres), Hacl.
  reflexivity.
Qed.

(** X11: handle warns at most once. A check that returns has logged no
    warning, and a check that has logged a warning ends with the denial error
    of the credentials. *)
Theorem handle_warns_at_most_once (fuel : nat) (input : AuthorizerArgs) :
  countEvents isWarnEvent (fst (handle this fuel input)) <= 1 /\
  (snd (handle this fuel input) = Return tt ->
   countEvents isWarnEvent (fst (handle this fuel input)) = 0) /\
  (countEvents isWarnEvent (fst (handle this fuel input)) = 1 ->
   snd (handle this fuel input) = Throw (denialError (credentials input))).
Proof.
  pose proof (getAclRecursive_no_warning fuel (identifier input) None) as Hquiet.
  destruct (getAclRecursive this fuel (identifier input) None)
    as [t [store | e |]] eqn:Hres; cbn [fst] in Hquiet.
  - rewrite (handle_resolved this fuel input t store Hres).
    destruct (isAcl (aclManager this) (identifier input)) as [e | [|]]; cbn [fst snd].
    + rewrite countEvents_app, Hquiet. cbn. repeat split; try lia; discriminate.
    + rewrite checkPermission_mode.
      destruct (isModeGranted store (credentials input) control); cbn [fst snd].
      * change (IsAcl ?i :: ?l) with ([IsAcl i] ++ l).
        rewrite !countEvents_app, Hquiet. cbn. repeat split; try lia; discriminate.
      * change (IsAcl ?i :: ?l) with ([IsAcl i] ++ l).
        rewrite !countEvents_app, Hquiet. unfold countEvents at 2 3. cbn [filter].
        rewrite isWarn_denialLine. cbn.
        split; [lia |]. split; [discriminate | reflexivity].
    + destruct (forEach_checkPermission_shape (credentials input) store
                  (requested (permissions input))) as [-> | [key [_ ->]]];
        cbn [fst snd].
      * change (IsAcl ?i :: ?l) with ([IsAcl i] ++ l).
        rewrite !countEvents_app, Hquiet. cbn. repeat split; try lia; discriminate.
      * change (IsAcl ?i :: ?l) with ([IsAcl i] ++ l).
        rewrite !countEvents_app, Hquiet. unfold countEvents at 2 3. cbn [filter].
        rewrite isWarn_denialLine. cbn.
        split; [lia |]. split; [discriminate | reflexivity].
  - unfold handle. rewrite Hres. cbn [bind fst snd]. rewrite Hquiet.
    split; [lia |]. split; [discriminate | lia].
  - unfold handle. rewrite Hres. cbn [bind fst snd]. rewrite Hquiet.
    split; [lia |]. split; [discriminate | lia].
Qed.

End HandleFurther.

(* ------------------------------------------------------------------ *)
(** ** Further properties of the resolution *)

Lemma getAclCalls_app (t t' : list Event) :
  getAclCalls (t ++ t') = getAclCalls t ++ getAclCalls t'.
Proof. unfold getAclCalls. apply flat_map_app. Qed.

Lemma last_nonempty {A} (x : A) (l : list A) (d d' : A) :
  last (x :: l) d = last (x :: l) d'.
Proof.
  revert x. induction l as [| y l IH]; intros x; [reflexivity |].
  change (last (x :: y :: l) d) with (last (y :: l) d).
  change (last (x :: y :: l) d') with (last (y :: l) d'). apply IH.
Qed.

Section ResolutionFurther.

Variable this : WebAclAuthorizer.

Lemma readAcl_calls (id : ResourceIdentifier) :
  getAclCalls (fst (readAcl this id)) = [id].
Proof.
  unfold readAcl.
  destruct (getAcl (aclManager this) id) as [e | acl]; simpl; [reflexivity |].
  destruct (getRepresentation (resourceStore this) acl); reflexivity.
Qed.

(** A level where the walk stops: the fetch of the ACL document does not
    report not found, or the identifier has no parent. *)
Lemma stopping_level (fuel fuel' : nat) (id : ResourceIdentifier) (recurse : option bool) :
  fetchAcl this id <> inl NotFoundHttpError \/
  (exists e, getParentContainer this id = inl e) ->
  getAclRecursive this (S fuel) id recurse = getAclRecursive this (S fuel') id recurse /\
  snd (getAclRecursive this (S fuel) id recurse) <> OutOfFuel /\
  getAclCalls (fst (getAclRecursive this (S fuel) id recurse)) = [id].
Proof.
  intros Hstop. rewrite !getAclRecursive_S.
  pose proof (readAcl_outcome this id) as Ho.
  pose proof (readAcl_calls id) as Hc.
  destruct (snd (readAcl this id)) as [representation | e |].
  - split; [reflexivity |]. cbn [fst snd]. split.
    + rewrite filterData_outcome. destruct (failure (data representation)); discriminate.
    + change (startLine id :: ?t) with ([startLine id] ++ t).
      now rewrite getAclCalls_app, Hc.
  - destruct (isNotFound e) eqn:Enf.
    + destruct e; try discriminate.
      destruct Hstop as [Hstop | [e' He']].
      * exfalso. apply Hstop. destruct (fetchAcl this id); congruence.
      * rewrite He'. split; [reflexivity |]. cbn [fst snd].
        split; [discriminate |].
        change (startLine id :: ?t) with ([startLine id] ++ t).
        now rewrite !getAclCalls_app, Hc.
    + split; [reflexivity |]. cbn [fst snd]. split; [discriminate |].
      change (startLine id :: ?t) with ([startLine id] ++ t).
      now rewrite !getAclCalls_app, Hc.
  - exfalso. destruct (fetchAcl this id); discriminate.
Qed.

(** X12: the walk asks the locator for the target and for each ancestor in
    turn, once each and bottom-up, and for nothing above the level where it
    stops. When the levels below [top] report not found and [top] has an ACL
    document, fails otherwise, or has no parent, the getAcl calls of the
    resolution are exactly the chain from the target to [top]. *)
Theorem walk_asks_chain_once (fuel n : nat) (id top : ResourceIdentifier)
    (recurse : option bool) :
  climb this n id = Some top ->
  fetchAcl this top <> inl NotFoundHttpError \/
  (exists e, getParentContainer this top = inl e) ->
  getAclCalls (fst (getAclRecursive this (n + S fuel) id recurse)) = chain this n id /\
  length (chain this n id) = S n /\
  last (chain this n id) id = top.
Proof.
  intros Hclimb Hstop. revert id recurse Hclimb.
  induction n as [| n IH]; intros id recurse Hclimb.
  - simpl in Hclimb. injection Hclimb as ->.
    destruct (stopping_level fuel fuel top recurse Hstop) as (_ & _ & Hcalls).
    split; [exact Hcalls |]. split; reflexivity.
  - apply climb_S_inv in Hclimb. destruct Hclimb as [Hf [parent [Hp Hc]]].
    destruct (IH parent (Some true) Hc) as (Hcalls & Hlen & Hlast).
    change (S n + S fuel) with (S (n + S fuel)).
    rewrite getAclRecursive_S, readAcl_outcome, Hf, Hp. cbn [isNotFound fst chain].
    rewrite Hp. split; [| split].
    + change (startLine id :: ?t) with ([startLine id] ++ t).
      rewrite !getAclCalls_app, readAcl_calls, Hcalls. reflexivity.
    + simpl. now rewrite Hlen.
    + destruct (chain this n parent) as [| x rest] eqn:E; [discriminate |].
      rewrite <- Hlast. change (last (id :: x :: rest) id) with (last (x :: rest) id).
      apply last_nonempty.
Qed.

(** X13: the resolution terminates once the walk reaches a level that has an
    ACL document, fails otherwise, or has no parent: with [n] levels below
    that level reporting not found, every recursion budget above [n] gives
    the same trace and the same outcome, which is a store or an error. *)
Theorem resolution_terminates (fuel fuel' n : nat) (id top : ResourceIdentifier)
    (recurse : option bool) :
  climb this n id = Some top ->
  fetchAcl this top <> inl NotFoundHttpError \/
  (exists e, getParentContainer this top = inl e) ->
  getAclRecursive this (n + S fuel) id recurse
  = getAclRecursive this (n + S fuel') id recurse /\
  snd (getAclRecursive this (n + S fuel) id recurse) <> OutOfFuel.
Proof.
  intros Hclimb Hstop. revert id recurse Hclimb.
  induction n as [| n IH]; intros id recurse Hclimb.
  - simpl in Hclimb. injection Hclimb as ->.
    destruct (stopping_level fuel fuel' top recurse Hstop) as (Heq & Hout & _).
    split; assumption.
  - apply climb_S_inv in Hclimb. destruct Hclimb as [Hf [parent [Hp Hc]]].
    destruct (IH parent (Some true) Hc) as [Heq Hout].
    change (S n + S fuel) with (S (n + S fuel)).
    change (S n + S fuel') with (S (n + S fuel')).
    rewrite !getAclRecursive_S, readAcl_outcome, Hf, Hp. cbn [isNotFound].
    rewrite Heq. split; [reflexivity |]. cbn [snd]. rewrite <- Heq. exact Hout.
Qed.

End ResolutionFurther.

Lemma walk_asks_chain_once_witness :
  climb (pod inheritedPod) 2 (mkId "/a/b/c") = Some (mkId "/a/") /\
  (fetchAcl (pod inheritedPod) (mkId "/a/") <> inl NotFoundHttpError \/
   (exists e, getParentContainer (pod inheritedPod) (mkId "/a/") = inl e)) /\
  getAclCalls (fst (getAclRecursive (pod inheritedPod) (2 + 1) (mkId "/a/b/c") None))
  = [mkId "/a/b/c"; mkId "/a/b/"; mkId "/a/"].
Proof.
  assert (Hstop : fetchAcl (pod inheritedPod) (mkId "/a/") <> inl NotFoundHttpError \/
                  (exists e, getParentContainer (pod inheritedPod) (mkId "/a/") = inl e))
    by (left; discriminate).
  split; [reflexivity |]. split; [exact Hstop |].
  exact (proj1 (walk_asks_chain_once (pod inheritedPod) 0 2 (mkId "/a/b/c") (mkId "/a/")
                  None eq_refl Hstop)).
Defined.

Lemma resolution_terminates_witness :
  climb (pod emptyPod) 3 (mkId "/a/b/c") = Some (mkId "/") /\
  (fetchAcl (pod emptyPod) (mkId "/") <> inl NotFoundHttpError \/
   (exists e, getParentContainer (pod emptyPod) (mkId "/") = inl e)) /\
  getAclRecursive (pod emptyPod) (3 + 1) (mkId "/a/b/c") None
  = getAclRecursive (pod emptyPod) (3 + 8) (mkId "/a/b/c") None /\
  snd (getAclRecursive (pod emptyPod) (3 + 1) (mkId "/a/b/c") None) <> OutOfFuel.
Proof.
  assert (Hstop : fetchAcl (pod emptyPod) (mkId "/") <> inl NotFoundHttpError \/
                  (exists e, getParentContainer (pod emptyPod) (mkId "/") = inl e))
    by (right; eexists; reflexivity).
  split; [reflexivity |]. split; [exact Hstop |].
  exact (resolution_terminates (pod emptyPod) 0 7 3 (mkId "/a/b/c") (mkId "/") None
           eq_refl Hstop).
Defined.

Lemma stream_error_escapes_catch_witness :
  fetchAcl (pod vanishingPod) (mkId "/a/b/c")
  = inr (mkRepresentation (mkStream [] (Some NotFoundHttpError))) /\
  getAclRecursive (pod vanishingPod) 1 (mkId "/a/b/c") None
  = (startLine (mkId "/a/b/c") :: fst (readAcl (pod vanishingPod) (mkId "/a/b/c")),
     Throw NotFoundHttpError).
Proof.
  split; [reflexivity |].
  exact (stream_error_escapes_catch (pod vanishingPod) 0 (mkId "/a/b/c") None
           (mkRepresentation (mkStream [] (Some NotFoundHttpError))) NotFoundHttpError
           eq_refl eq_refl).
Defined.

Lemma not_found_origin_witness :
  (forall id, getParentContainer (pod inheritedPod) id <> inl NotFoundHttpError) /\
  (forall id representation,
      fetchAcl (pod inheritedPod) id = inr representation ->
      failure (data representation) <> Some NotFoundHttpError) /\
  (forall fuel id recurse,
      snd (getAclRecursive (pod inheritedPod) fuel id recurse) <> Throw NotFoundHttpError).
Proof.
  assert (Hutil : forall id,
             getParentContainer (pod inheritedPod) id <> inl NotFoundHttpError).
  { intros id. simpl. unfold parentContainerOf.
    destruct (upToLastSlash (stripTrailingSlash (path id))); discriminate. }
  assert (Hstream : forall id representation,
             fetchAcl (pod inheritedPod) id = inr representation ->
             failure (data representation) <> Some NotFoundHttpError).
  { intros id representation. unfold fetchAcl, pod, inheritedPod, memoryStore.
    cbn [aclManager resourceStore suffixAclManager getAcl getRepresentation
         lookupDocument].
    match goal with
    | |- context [String.eqb ?a ?b] => destruct (String.eqb a b)
    end; [| discriminate].
    intros H. injection H as <-. discriminate. }
  split; [exact Hutil |]. split; [exact Hstream |].
  exact (not_found_origin (pod inheritedPod) Hutil Hstream).
Defined.

Lemma handle_outcome_ignores_key_order_witness :
  NoDup (keys [(read, true); (write, true)]) /\
  Permutation [(read, true); (write, true)] [(write, true); (read, true)] /\
  snd (authorize inheritedPod anonymous "/a/b/c" [(read, true); (write, true)])
  = snd (authorize inheritedPod anonymous "/a/b/c" [(write, true); (read, true)]).
Proof.
  assert (Hnodup : NoDup (keys [(read, true); (write, true)])).
  { repeat constructor; simpl; intuition discriminate. }
  split; [exact Hnodup |]. split; [apply perm_swap |].
  exact (handle_outcome_ignores_key_order (pod inheritedPod) 10 anonymous
           (mkId "/a/b/c") [(read, true); (write, true)] [(write, true); (read, true)]
           Hnodup (perm_swap _ _ _)).
Defined.

Lemma isAcl_error_ends_check_witness :
  getAclRecursive (mkAuthorizer blindAclManager inheritedPod parentContainerOf) 10
                  (mkId "/a/b/c") None
  = (fst (getAclRecursive (mkAuthorizer blindAclManager inheritedPod parentContainerOf)
                          10 (mkId "/a/b/c") None),
     Return publicRead) /\
  isAcl blindAclManager (mkId "/a/b/c") = inl (OtherError "locator failure") /\
  handle (mkAuthorizer blindAclManager inheritedPod parentContainerOf) 10
         (mkArgs anonymous (mkId "/a/b/c") [(read, true)])
  = (fst (getAclRecursive (mkAuthorizer blindAclManager inheritedPod parentContainerOf)
                          10 (mkId "/a/b/c") None)
       ++ [IsAcl (mkId "/a/b/c")],
     Throw (OtherError "locator failure")).
Proof.
  split; [reflexivity |]. split; [reflexivity |].
  exact (isAcl_error_ends_check
           (mkAuthorizer blindAclManager inheritedPod parentContainerOf) 10
           (mkArgs anonymous (mkId "/a/b/c") [(read, true)])
           (fst (getAclRecursive
                   (mkAuthorizer blindAclManager inheritedPod parentContainerOf)
                   10 (mkId "/a/b/c") None))
           publicRead (OtherError "locator failure") eq_refl eq_refl).
Defined.
